(** * nginx-healthz: the client and its concurrent stats aggregator

    A shallow embedding of [client.go] (package [nginxhealthz]) and the
    properties of its stats reduction, hostname resolution, fan-out merge
    and constructor.

    Conventions of the embedding:
    - Go's [int] is the 64-bit signed integer of the targets the package
      is built for; it is a [Z] with the wrap-around written out
      ([wrap_int]).  [uint64] is a [Z] reduced modulo [2^64].
    - Go strings are byte strings: Rocq's [string].
    - a function returning [(T, error)] returns a [result T]: the value
      when the error is nil, the error otherwise (Go callers read the
      value only when the error is nil).
    - a run-time panic is an outcome of its own ([Panic]), distinct from
      a returned error.
    - the network is data: an [exchange] records what one HTTP round trip
      does, and [get] is the code that consumes it. *)

From Stdlib Require Import ZArith Lia List Permutation Ascii.
From stdpp Require Import gmap strings list fin_maps pretty.
Import ListNotations.

Set Warnings "-register-all".

Local Open Scope string_scope.
Local Open Scope Z_scope.

(** ** Machine integers *)

Definition MaxInt : Z := 2 ^ 63 - 1.
Definition MinInt : Z := - 2 ^ 63.

(** Two's-complement reduction of an integer to [int]. *)
Definition wrap_int (z : Z) : Z := (z + 2 ^ 63) mod 2 ^ 64 - 2 ^ 63.

(** [a + b] and [a - b] on [int]. *)
Definition int_add (a b : Z) : Z := wrap_int (a + b).
Definition int_sub (a b : Z) : Z := wrap_int (a - b).

(** The conversion [uint64(x)] of an [int], and [a + b] on [uint64]. *)
Definition uint64 (z : Z) : Z := z mod 2 ^ 64.
Definition uint64_add (a b : Z) : Z := (a + b) mod 2 ^ 64.

(** The conversion [int(u)] of a [uint64]. *)
Definition int_of_uint64 (u : Z) : Z := wrap_int u.

Definition is_int (z : Z) : Prop := MinInt <= z <= MaxInt.

(** ** Errors and outcomes *)

(** Go's [error] values as the package builds them: [errors.New] and
    [fmt.Errorf] without [%w] give a plain message, [fmt.Errorf] with
    [%w] gives a message wrapping the inner error. *)
Inductive error : Type :=
| errorString (msg : string)
| wrapError (msg : string) (inner : error).

(** [err.Error()]. *)
Definition Error (e : error) : string :=
  match e with
  | errorString msg => msg
  | wrapError msg _ => msg
  end.

(** [errors.New(msg)]. *)
Definition errors_New (msg : string) : error := errorString msg.

(** [fmt.Errorf(prefix + "%w", err)]: the format's text before the verb,
    then the inner error's message. *)
Definition Errorf_w (prefix : string) (err : error) : error :=
  wrapError (prefix +:+ Error err) err.

(** The result of a Go function returning [(T, error)]. *)
Inductive result (T : Type) : Type :=
| Ok (v : T)
| Err (e : error).
Arguments Ok {T} v.
Arguments Err {T} e.

Definition is_err {T} (r : result T) : bool :=
  match r with Ok _ => false | Err _ => true end.

(** What a call does: it returns, or the goroutine panics. *)
Inductive outcome (T : Type) : Type :=
| Ret (v : T)
| Panic (msg : string).
Arguments Ret {T} v.
Arguments Panic {T} msg.

(** ** The wire types *)

Record Ssl := {
  Handshakes : Z;
  HandshakesFailed : Z;
  SessionReuses : Z
}.

Record Codes := {
  Num200 : Z; Num301 : Z; Num304 : Z;
  Num400 : Z; Num404 : Z; Num405 : Z
}.

Record Responses := {
  OneXx : Z; TwoXx : Z; ThreeXx : Z; FourXx : Z; FiveXx : Z;
  ResponseCodes : Codes;
  ResponsesTotal : Z
}.

Record HealthChecks := {
  Checks : Z;
  HealthFails : Z;
  Unhealthy : Z;
  LastPassed : bool
}.

(** One element of [responseUpstream.Peers]. *)
Record Peer := {
  ID : Z;
  Server : string;
  Name : string;
  Backup : bool;
  Weight : Z;
  State : string;
  Active : Z;
  PeerSsl : Ssl;
  Requests : Z;
  HeaderTime : Z;
  ResponseTime : Z;
  PeerResponses : Responses;
  Sent : Z;
  Received : Z;
  Fails : Z;
  Unavail : Z;
  PeerHealthChecks : HealthChecks;
  Downtime : Z;
  Selected : Z
}.

Record responseUpstream := {
  Peers : list Peer;
  Keepalive : Z;
  Zombies : Z;
  Zone : string
}.

Record Stats := {
  Total : Z;
  Up : Z;
  Down : Z
}.

(** [Stats{}]. *)
Definition Stats_zero : Stats := {| Total := 0; Up := 0; Down := 0 |}.

(** ** The stats reduction *)

(** [len(s)] of a slice, an [int]. *)
Definition len {A} (s : list A) : Z := Z.of_nat (length s).

(** The loop [for _, p := range res.Peers { if p.State == "up" { up++ } }],
    started with the counter at [up]. *)
Fixpoint count_up (peers : list Peer) (up : Z) : Z :=
  match peers with
  | [] => up
  | p :: rest =>
      count_up rest (if String.eqb (State p) "up" then int_add up 1 else up)
  end.

Definition calculateStatsFor (upstream : string) (res : responseUpstream)
  : result Stats :=
  if len (Peers res) <? 1 then Err (errors_New "no servers in upstream")
  else
    let total := len (Peers res) in
    let up := count_up (Peers res) 0 in
    let down := int_sub total up in
    Ok {| Total := total; Up := up; Down := down |}.

(** ** Dynamic values and string splitting *)

(** A value of type [interface{}], as [json.Unmarshal] stores it: nil, bool,
    float64, string, [[]interface{}] or [map[string]interface{}].  A map
    is the sequence of its entries in the order a [range] over it visits
    them, which the runtime chooses; its keys are distinct
    ([distinct_keys]).  The code never reads a number, which is kept as
    the bit pattern of its float64. *)
Inductive any : Type :=
| VNil
| VBool (b : bool)
| VFloat64 (bits : Z)
| VString (s : string)
| VSlice (elems : list any)
| VMap (entries : list (string * any)).

Definition distinct_keys {A} (entries : list (string * A)) : Prop :=
  NoDup (map fst entries).

(** The checked type assertions [v.(map[string]interface{})] and
    [v.(string)]: the value and [ok]. *)
Definition as_map (v : any) : option (list (string * any)) :=
  match v with
  | VMap entries => Some entries
  | _ => None
  end.

Definition as_string (v : any) : option string :=
  match v with
  | VString s => Some s
  | _ => None
  end.

(** [m[k]] on a [map[string]interface{}]: the nil interface when the key
    is absent. *)
Fixpoint map_index (m : list (string * any)) (k : string) : any :=
  match m with
  | [] => VNil
  | (k', v) :: rest => if String.eqb k' k then v else map_index rest k
  end.

(** [strings.Split(s, sep)] for a one-byte separator, the only kind the
    package passes: the substrings between the separators, at least one. *)
Fixpoint Split (s : string) (sep : ascii) : list string :=
  match s with
  | EmptyString => [EmptyString]
  | String c rest =>
      if Ascii.eqb c sep then EmptyString :: Split rest sep
      else
        match Split rest sep with
        | [] => [String c EmptyString]
        | seg :: segs => String c seg :: segs
        end
  end.

(** [s[i]] on a slice: out of range is a run-time panic. *)
Definition slice_index {A} (s : list A) (i : nat) : outcome A :=
  match nth_error s i with
  | Some x => Ret x
  | None => Panic "runtime error: index out of range"
  end.

(** Sequencing of calls that may panic: a panic ends the caller too. *)
#[global] Instance outcome_bind : MBind outcome :=
  fun A B (k : A -> outcome B) (m : outcome A) =>
    match m with
    | Ret v => k v
    | Panic msg => Panic msg
    end.

(** The byte ['-']. *)
Definition hyphen : ascii := Ascii.ascii_of_nat 45.

(** ** The zone/hostname resolver *)

(** The hostname a zone string stands for:
    [strings.Split(host, "-")[0]]. *)
Definition derive_hostname (zone : string) : outcome string :=
  slice_index (Split zone hyphen) 0.

(** One iteration of the loop of [hostnameUpstreamsFromResponse], for the
    entry [u, v]; [continue] returns the map as it is. *)
Definition range_body (hostname : string)
    (hostUpstreams : gmap string (list string)) (u : string) (v : any)
  : outcome (gmap string (list string)) :=
  match as_map v with
  | None => Ret hostUpstreams
  | Some value =>
      let z := map_index value "zone" in
      match as_string z with
      | None => Ret hostUpstreams
      | Some host =>
          host ← derive_hostname host;
          if negb (String.eqb host hostname) then Ret hostUpstreams
          else
            match hostUpstreams !! host with
            | None => Ret (<[host := [u]]> hostUpstreams)
            | Some ux => Ret (<[host := (ux ++ [u])%list]> hostUpstreams)
            end
      end
  end.

(** [for u, v := range m { ... }]. *)
Fixpoint range_entries (hostname : string) (m : list (string * any))
    (hostUpstreams : gmap string (list string))
  : outcome (gmap string (list string)) :=
  match m with
  | [] => Ret hostUpstreams
  | (u, v) :: rest =>
      hostUpstreams' ← range_body hostname hostUpstreams u v;
      range_entries hostname rest hostUpstreams'
  end.

(** The first statement is the unchecked assertion
    [m := res.(map[string]interface{})], which panics on any other
    dynamic type. *)
Definition hostnameUpstreamsFromResponse (hostname : string) (res : any)
  : outcome (gmap string (list string)) :=
  match as_map res with
  | None => Panic "interface conversion: interface {} is not map[string]interface {}"
  | Some m => range_entries hostname m ∅
  end.

(** ** Transport *)

(** What one HTTP round trip does, stage by stage: building the request,
    sending it, the status code of the response, reading its body, and
    decoding the body into each of the two targets the package passes as
    [data] (a [responseUpstream] and an [interface{}]).  A cancelled or
    expired context shows as [do_error]. *)
Record exchange := {
  request_error : option error;
  do_error : option error;
  StatusCode : Z;
  read_error : option error;
  unmarshal_upstream : result responseUpstream;
  unmarshal_any : result any
}.

(** An [http.Client] is what its round trips do, by URL. *)
Record http_Client := { Do : string -> exchange }.

Record Client := {
  version : Z;
  baseURL : string;
  httpClient : http_Client
}.

Definition StatusOK : Z := 200.

(** [c.get(ctx, url, data)]; [data] selects the decoding of the body. *)
Definition get {T} (c : Client) (url : string) (data : exchange -> result T)
  : result T :=
  let x := Do (httpClient c) url in
  match request_error x with
  | Some err => Err (Errorf_w "creating request: " err)
  | None =>
      match do_error x with
      | Some err => Err (Errorf_w "sending request: " err)
      | None =>
          if negb (StatusCode x =? StatusOK)
          then Err (errorString ("got response code: " +:+ pretty (StatusCode x)))
          else
            match read_error x with
            | Some err => Err (Errorf_w "reading response body: " err)
            | None =>
                match data x with
                | Err err => Err (Errorf_w "unmarshaling response body: " err)
                | Ok v => Ok v
                end
            end
      end
  end.

(** ** Construction *)

(** An [option]: it may change the client and returns an error or nil. *)
Definition clientOption : Type := Client -> Client * option error.

Definition WithHTTPClient (h : option http_Client) : clientOption :=
  fun c =>
    match h with
    | None => (c, Some (errors_New "nil http client"))
    | Some h' =>
        ({| version := version c; baseURL := baseURL c; httpClient := h' |},
         None)
    end.

Definition WithVersion (v : Z) : clientOption :=
  fun c =>
    if (v =? 4) || (v =? 5) || (v =? 6) || (v =? 7) || (v =? 8)
    then ({| version := v; baseURL := baseURL c; httpClient := httpClient c |},
          None)
    else (c, Some (errorString ("unsupported NGINX version: " +:+ pretty v))).

(** [for _, opt := range opts { if err := opt(&c); err != nil { return nil, err } }]. *)
Fixpoint apply_options (opts : list clientOption) (c : Client) : result Client :=
  match opts with
  | [] => Ok c
  | opt :: rest =>
      match opt c with
      | (_, Some err) => Err err
      | (c', None) => apply_options rest c'
      end
  end.

Section Construction.

(** The [&http.Client{}] a new client starts with. *)
Variable defaultHTTP : http_Client.

Definition NewClient (baseURL : string) (opts : list clientOption)
  : result Client :=
  if String.eqb baseURL "" then Err (errors_New "invalid base URL")
  else
    apply_options opts
      {| version := 8; baseURL := baseURL; httpClient := defaultHTTP |}.

End Construction.

(** ** The client's queries *)

(** [fmt.Sprintf("%s/api/%d/http/upstreams/%s", c.baseURL, c.version, upstream)]. *)
Definition upstream_url (c : Client) (upstream : string) : string :=
  baseURL c +:+ "/api/" +:+ pretty (version c) +:+ "/http/upstreams/"
  +:+ upstream.

(** [fmt.Sprintf("%s/api/%d/http/upstreams?fields=zone", c.baseURL, c.version)]. *)
Definition zones_url (c : Client) : string :=
  baseURL c +:+ "/api/" +:+ pretty (version c)
  +:+ "/http/upstreams?fields=zone".

Definition GetStatsFor (c : Client) (upstream : string) : result Stats :=
  let url := upstream_url c upstream in
  match get c url unmarshal_upstream with
  | Err err => Err err
  | Ok res => calculateStatsFor upstream res
  end.

Definition GetUpstreamsFor (c : Client) (hostname : string)
  : outcome (result (gmap string (list string))) :=
  let url := zones_url c in
  match get c url unmarshal_any with
  | Err err => Ret (Err (Errorf_w "retrieving zones: " err))
  | Ok response =>
      m ← hostnameUpstreamsFromResponse hostname response;
      Ret (Ok m)
  end.

(** ** The concurrent aggregator *)

(** The shared accumulators [total, up, down uint64]. *)
Record counters := { total : Z; up : Z; down : Z }.

(** One [atomic.AddUint64] on one of the three accumulators. *)
Inductive event : Type :=
| AddTotal (delta : Z)
| AddUp (delta : Z)
| AddDown (delta : Z).

Definition atomic_step (s : counters) (e : event) : counters :=
  match e with
  | AddTotal d =>
      {| total := uint64_add (total s) d; up := up s; down := down s |}
  | AddUp d =>
      {| total := total s; up := uint64_add (up s) d; down := down s |}
  | AddDown d =>
      {| total := total s; up := up s; down := uint64_add (down s) d |}
  end.

(** The atomic operations of one goroutine, in program order, given what
    its [GetStatsFor] returned: none on an error, the three additions
    otherwise. *)
Definition goroutine (fetched : result Stats) : list event :=
  match fetched with
  | Err _ => []
  | Ok stat =>
      [AddTotal (uint64 (Total stat)); AddUp (uint64 (Up stat));
       AddDown (uint64 (Down stat))]
  end.

(** The executions of a set of goroutines up to the point where
    [wg.Wait] returns: every goroutine has run to its end, and the
    operations of different goroutines are interleaved in any way that
    keeps each goroutine's own order. *)
Inductive interleaving : list (list event) -> list event -> Prop :=
| interleaving_done threads :
    Forall (fun t => t = []) threads -> interleaving threads []
| interleaving_step before e t after trace :
    interleaving (before ++ t :: after) trace ->
    interleaving (before ++ (e :: t) :: after) (e :: trace).

Definition counters_zero : counters := {| total := 0; up := 0; down := 0 |}.

Definition run_trace (trace : list event) : counters :=
  fold_left atomic_step trace counters_zero.

(** [Stats{Total: int(total), Up: int(up), Down: int(down)}]. *)
Definition read_counters (s : counters) : Stats :=
  {| Total := int_of_uint64 (total s);
     Up := int_of_uint64 (up s);
     Down := int_of_uint64 (down s) |}.

(** The fan-out and the barrier, given what each goroutine's fetch
    returned: [stat] is a value the call can return. *)
Definition merge_returns (fetched : list (result Stats)) (stat : Stats) : Prop :=
  exists trace,
    interleaving (map goroutine fetched) trace /\
    stat = read_counters (run_trace trace).

(** The execution in which the goroutines run one after the other. *)
Definition merge (fetched : list (result Stats)) : Stats :=
  read_counters (run_trace (concat (map goroutine fetched))).

(** [c.GetStatsForUpstreams(ctx, upstreams)] as a relation over all
    schedules, and as the function computed under the sequential one;
    [GetStatsForUpstreams_deterministic] shows they agree. *)
Definition GetStatsForUpstreams_returns (c : Client) (upstreams : list string)
    (stat : Stats) : Prop :=
  merge_returns (map (GetStatsFor c) upstreams) stat.

Definition GetStatsForUpstreams (c : Client) (upstreams : list string) : Stats :=
  merge (map (GetStatsFor c) upstreams).

Definition GetStatsForHost (c : Client) (hostname : string)
  : outcome (result Stats) :=
  r ← GetUpstreamsFor c hostname;
  match r with
  | Err err =>
      Ret (Err (Errorf_w ("getting stats for host " +:+ hostname +:+ ": ") err))
  | Ok upstreams =>
      match upstreams !! hostname with
      | None => Ret (Err (errorString ("no stat data for host " +:+ hostname)))
      | Some ux => Ret (Ok (GetStatsForUpstreams c ux))
      end
  end.

(** ** Sample data *)

(** A peer whose fields are Go's zero values except its state. *)
Definition peer_in_state (state : string) : Peer :=
  {| ID := 0; Server := ""; Name := ""; Backup := false; Weight := 0;
     State := state; Active := 0;
     PeerSsl := {| Handshakes := 0; HandshakesFailed := 0; SessionReuses := 0 |};
     Requests := 0; HeaderTime := 0; ResponseTime := 0;
     PeerResponses :=
       {| OneXx := 0; TwoXx := 0; ThreeXx := 0; FourXx := 0; FiveXx := 0;
          ResponseCodes :=
            {| Num200 := 0; Num301 := 0; Num304 := 0;
               Num400 := 0; Num404 := 0; Num405 := 0 |};
          ResponsesTotal := 0 |};
     Sent := 0; Received := 0; Fails := 0; Unavail := 0;
     PeerHealthChecks :=
       {| Checks := 0; HealthFails := 0; Unhealthy := 0; LastPassed := false |};
     Downtime := 0; Selected := 0 |}.

(** An upstream response with peers in the given states. *)
Definition upstream_with (states : list string) : responseUpstream :=
  {| Peers := map peer_in_state states; Keepalive := 0; Zombies := 0;
     Zone := "" |}.

(** A round trip that succeeds with status 200 and the given decodings. *)
Definition exchange_ok (res : result responseUpstream) (v : result any)
  : exchange :=
  {| request_error := None; do_error := None; StatusCode := 200;
     read_error := None; unmarshal_upstream := res; unmarshal_any := v |}.

(** A round trip that fails to connect. *)
Definition exchange_refused : exchange :=
  {| request_error := None;
     do_error := Some (errorString "connection refused");
     StatusCode := 0; read_error := None;
     unmarshal_upstream := Err (errorString "unreachable");
     unmarshal_any := Err (errorString "unreachable") |}.

(** A client of the given server, as [NewClient] leaves it. *)
Definition client_of (server : string -> exchange) : Client :=
  {| version := 8; baseURL := "http://localhost:9001";
     httpClient := {| Do := server |} |}.

(** The zone map of the package's tests. *)
Definition zone_entry (zone : string) : any := VMap [("zone", VString zone)].

Definition sample_zones : any :=
  VMap [("demo-backend", zone_entry "foo.example.com-demo-backend");
        ("trac-backend", zone_entry "bar.example.com-trac-backend");
        ("hg-backend", zone_entry "bar.example.org-hg-backend");
        ("lxr-backend", zone_entry "bar.example.org-lxr-backend")].

(** The server of the package's tests: the zone map, [hg-backend] with
    one peer up and one down, [lxr-backend] with both peers up, and no
    answer for anything else. *)
Definition sample_server (url : string) : exchange :=
  if String.eqb url "http://localhost:9001/api/8/http/upstreams?fields=zone"
  then exchange_ok (Err (errorString "not an upstream")) (Ok sample_zones)
  else if String.eqb url "http://localhost:9001/api/8/http/upstreams/hg-backend"
  then exchange_ok (Ok (upstream_with ["up"; "down"])) (Err (errorString "unused"))
  else if String.eqb url "http://localhost:9001/api/8/http/upstreams/lxr-backend"
  then exchange_ok (Ok (upstream_with ["up"; "up"])) (Err (errorString "unused"))
  else exchange_refused.

Definition sample_client : Client := client_of sample_server.

(** ** The spec's words for construction *)

(** Whether a string has an occurrence of the byte [c]. *)
Fixpoint contains_byte (s : string) (c : ascii) : bool :=
  match s with
  | EmptyString => false
  | String c' rest => Ascii.eqb c' c || contains_byte rest c
  end.

(** The protocol versions [WithVersion] lists. *)
Definition supported_versions : list Z := [4; 5; 6; 7; 8].

(** A base URL is an absolute URL, and an absolute URL starts with a
    scheme followed by a colon: a string without a colon is malformed. *)
Definition colon : ascii := Ascii.ascii_of_nat 58.

Definition lacks_scheme (s : string) : bool := negb (contains_byte s colon).

(** ** The spec's words for the resolver *)

(** The hostname derived for one entry of the zone map: the entry is an
    object, its ["zone"] is a string, and the hostname is derived from
    that string; [None] for an entry of any other shape. *)
Definition entry_hostname (v : any) : option string :=
  match as_map v with
  | None => None
  | Some value =>
      match as_string (map_index value "zone") with
      | None => None
      | Some zone =>
          match derive_hostname zone with
          | Ret host => Some host
          | Panic _ => None
          end
      end
  end.

Definition entry_matches (hostname : string) (e : string * any) : bool :=
  match entry_hostname (snd e) with
  | Some host => String.eqb host hostname
  | None => false
  end.

(** The names of the upstreams whose derived hostname is [hostname], in
    the order of the entries. *)
Definition matching_upstreams (hostname : string)
    (entries : list (string * any)) : list string :=
  map fst (List.filter (entry_matches hostname) entries).

(** ** The spec's words for the aggregate *)

(** The Stats of the fetches that succeeded, in the order of the input. *)
Fixpoint succeeded (fetched : list (result Stats)) : list Stats :=
  match fetched with
  | [] => []
  | Ok stat :: rest => stat :: succeeded rest
  | Err _ :: rest => succeeded rest
  end.

(** Component-wise [+] on [int] fields, and the sum of a list of Stats. *)
Definition stats_add (a b : Stats) : Stats :=
  {| Total := int_add (Total a) (Total b);
     Up := int_add (Up a) (Up b);
     Down := int_add (Down a) (Down b) |}.

Definition stats_sum (l : list Stats) : Stats :=
  fold_right stats_add Stats_zero l.

(** The sum of one field over a list of Stats, in the integers. *)
Definition sum_field (field : Stats -> Z) (l : list Stats) : Z :=
  fold_right (fun stat acc => field stat + acc) 0 l.

(** What an atomic operation adds to each accumulator. *)
Definition delta_total (e : event) : Z :=
  match e with AddTotal d => d | _ => 0 end.

Definition delta_up (e : event) : Z :=
  match e with AddUp d => d | _ => 0 end.

Definition delta_down (e : event) : Z :=
  match e with AddDown d => d | _ => 0 end.

Definition sum_deltas (delta : event -> Z) (trace : list event) : Z :=
  fold_right (fun e acc => delta e + acc) 0 trace.

(** ** The spec's words for the reduction *)

(** The number of peers whose state is the string ["up"], and the number
    of those whose state is anything else. *)
Definition peers_up (peers : list Peer) : nat :=
  length (List.filter (fun p => String.eqb (State p) "up") peers).

Definition peers_not_up (peers : list Peer) : nat :=
  length (List.filter (fun p => negb (String.eqb (State p) "up")) peers).

(** [Up + Down == Total] with the three fields non-negative. *)
Definition stats_consistent (s : Stats) : Prop :=
  0 <= Up s /\ 0 <= Down s /\ 0 <= Total s /\ Up s + Down s = Total s.

(** ** Error chains and transport stages *)

(** [errors.Unwrap(err)]. *)
Definition Unwrap (e : error) : option error :=
  match e with
  | errorString _ => None
  | wrapError _ inner => Some inner
  end.

(** A round trip in which the request is built and sent, the status is
    200 and the body is read to its end. *)
Definition stages_ok (x : exchange) : Prop :=
  request_error x = None /\ do_error x = None /\
  StatusCode x = StatusOK /\ read_error x = None.

(** ** More words for strings *)

(** [strings.Join(elems, sep)]. *)
Fixpoint Join (elems : list string) (sep : string) : string :=
  match elems with
  | [] => ""
  | [s] => s
  | s :: rest => s +:+ sep +:+ Join rest sep
  end.

(** [strings.Count(s, string(c))] for one byte. *)
Fixpoint count_byte (s : string) (c : ascii) : nat :=
  match s with
  | EmptyString => 0
  | String c' rest => (if Ascii.eqb c' c then 1 else 0) + count_byte rest c
  end.

(** ** The package's options as data *)

(** A call of one of the two option constructors the package exports. *)
Inductive optionCall : Type :=
| CallWithVersion (v : Z)
| CallWithHTTPClient (h : option http_Client).

Definition option_of (call : optionCall) : clientOption :=
  match call with
  | CallWithVersion v => WithVersion v
  | CallWithHTTPClient h => WithHTTPClient h
  end.

(** The calls whose option returns nil: a listed version, a client that
    is not nil. *)
Definition call_valid (call : optionCall) : bool :=
  match call with
  | CallWithVersion v => existsb (Z.eqb v) supported_versions
  | CallWithHTTPClient (Some _) => true
  | CallWithHTTPClient None => false
  end.

(** The versions, and the clients, the calls ask for, in order. *)
Fixpoint requested_versions (calls : list optionCall) : list Z :=
  match calls with
  | [] => []
  | CallWithVersion v :: rest => v :: requested_versions rest
  | CallWithHTTPClient _ :: rest => requested_versions rest
  end.

Fixpoint requested_clients (calls : list optionCall) : list http_Client :=
  match calls with
  | [] => []
  | CallWithHTTPClient (Some h) :: rest => h :: requested_clients rest
  | _ :: rest => requested_clients rest
  end.

(** ** Earlier revisions *)

(** The functions as earlier revisions of the package have them. *)
Module Previous.

(** [servers[i] = s]: a run-time panic when [i] is out of range. *)
Definition slice_store {A} (s : list A) (i : nat) (x : A) : outcome (list A) :=
  if decide (i < length s)%nat then Ret (<[i := x]> s)
  else Panic "runtime error: index out of range".

Record ServerStatus := {
  ServerStatus_Server : string;
  ServerStatus_Name : string;
  Status : string
}.

(** [make([]ServerStatus, n)]. *)
Definition make_servers (n : nat) : list ServerStatus :=
  replicate n
    {| ServerStatus_Server := ""; ServerStatus_Name := ""; Status := "" |}.

(** [for i, p := range res.Peers { servers[i] = ServerStatus{...} }],
    from index [i] on. *)
Fixpoint fill_servers (peers : list Peer) (i : nat)
    (servers : list ServerStatus) : outcome (list ServerStatus) :=
  match peers with
  | [] => Ret servers
  | p :: rest =>
      let s := {| ServerStatus_Server := Server p;
                  ServerStatus_Name := Name p;
                  Status := State p |} in
      servers' ← slice_store servers i s;
      fill_servers rest (S i) servers'
  end.

(** [for _, i := range servers { if i.Status == "up" { up++ } }]. *)
Fixpoint count_status_up (servers : list ServerStatus) (up : Z) : Z :=
  match servers with
  | [] => up
  | i :: rest =>
      count_status_up rest
        (if String.eqb (Status i) "up" then int_add up 1 else up)
  end.

(** The reduction when it went through a slice of [ServerStatus]; its
    result type [UpstreamStats] has the fields of [Stats], which is its
    later name. *)
Definition calculateStatsFor (upstream : string) (res : responseUpstream)
  : outcome (result Stats) :=
  if len (Peers res) <? 1
  then Ret (Err (errors_New "no servers in upstream"))
  else
    servers ← fill_servers (Peers res) 0
                (make_servers (length (Peers res)));
    let total := len servers in
    let up := count_status_up servers 0 in
    let down := int_sub total up in
    Ret (Ok {| Total := total; Up := up; Down := down |}).

(** One iteration of the inner loop [for _, z := range vv] of the
    resolver, whose first statement is the unchecked assertion
    [host := z.(string)]. *)
Definition field_body (hostname : string)
    (hostUpstreams : gmap string (list string)) (u : string) (z : any)
  : outcome (gmap string (list string)) :=
  match as_string z with
  | None => Panic "interface conversion: interface {} is not string"
  | Some host =>
      host ← derive_hostname host;
      if negb (String.eqb host hostname) then Ret hostUpstreams
      else
        match hostUpstreams !! host with
        | None => Ret (<[host := [u]]> hostUpstreams)
        | Some ux => Ret (<[host := (ux ++ [u])%list]> hostUpstreams)
        end
  end.

Fixpoint range_fields (hostname : string) (vv : list (string * any))
    (hostUpstreams : gmap string (list string)) (u : string)
  : outcome (gmap string (list string)) :=
  match vv with
  | [] => Ret hostUpstreams
  | (_, z) :: rest =>
      hostUpstreams' ← field_body hostname hostUpstreams u z;
      range_fields hostname rest hostUpstreams' u
  end.

(** [switch vv := v.(type) { case map[string]interface{}: ... }]. *)
Definition range_body (hostname : string)
    (hostUpstreams : gmap string (list string)) (u : string) (v : any)
  : outcome (gmap string (list string)) :=
  match as_map v with
  | Some vv => range_fields hostname vv hostUpstreams u
  | None => Ret hostUpstreams
  end.

Fixpoint range_entries (hostname : string) (m : list (string * any))
    (hostUpstreams : gmap string (list string))
  : outcome (gmap string (list string)) :=
  match m with
  | [] => Ret hostUpstreams
  | (u, v) :: rest =>
      hostUpstreams' ← range_body hostname hostUpstreams u v;
      range_entries hostname rest hostUpstreams'
  end.

Definition hostnameUpstreamsFromResponse (hostname : string) (res : any)
  : outcome (gmap string (list string)) :=
  match as_map res with
  | None => Panic "interface conversion: interface {} is not map[string]interface {}"
  | Some m => range_entries hostname m ∅
  end.




End Previous.



(** An entry as the query [fields=zone] returns it: an object with the
    one field ["zone"], a string. *)
Definition zone_only (e : string * any) : Prop :=
  exists zone, snd e = VMap [("zone", VString zone)].

(** The [ServerStatus] the earlier reduction builds for a peer. *)
Definition status_of_peer (p : Peer) : Previous.ServerStatus :=
  {| Previous.ServerStatus_Server := Server p;
     Previous.ServerStatus_Name := Name p;
     Previous.Status := State p |}.


(** * Properties *)

(** ** Integer facts *)

Lemma wrap_int_id z : is_int z -> wrap_int z = z.
Proof.
  unfold is_int, MinInt, MaxInt, wrap_int. intros Hz.
  rewrite Z.mod_small; lia.
Qed.

Lemma wrap_int_mod z : wrap_int (z mod 2 ^ 64) = wrap_int z.
Proof.
  unfold wrap_int. f_equal.
  rewrite Zplus_mod_idemp_l. reflexivity.
Qed.

Lemma wrap_int_add_r a b : wrap_int (a + wrap_int b) = wrap_int (a + b).
Proof.
  unfold wrap_int. f_equal.
  replace (a + ((b + 2 ^ 63) mod 2 ^ 64 - 2 ^ 63) + 2 ^ 63)
    with (a + (b + 2 ^ 63) mod 2 ^ 64) by lia.
  rewrite Zplus_mod_idemp_r. f_equal. lia.
Qed.

Lemma wrap_int_add_l a b : wrap_int (wrap_int a + b) = wrap_int (a + b).
Proof. rewrite Z.add_comm, wrap_int_add_r. f_equal. lia. Qed.

Lemma int_add_comm a b : int_add a b = int_add b a.
Proof. unfold int_add. f_equal. lia. Qed.

Lemma int_add_assoc a b c : int_add (int_add a b) c = int_add a (int_add b c).
Proof.
  unfold int_add. rewrite wrap_int_add_l, wrap_int_add_r. f_equal. lia.
Qed.

Lemma uint64_add_swap a d d' :
  uint64_add (uint64_add a d) d' = uint64_add (uint64_add a d') d.
Proof.
  unfold uint64_add. rewrite !Zplus_mod_idemp_l. f_equal. lia.
Qed.

(** ** The reduction of one upstream *)

Lemma peers_up_le peers : (peers_up peers <= length peers)%nat.
Proof. unfold peers_up. apply filter_length_le. Qed.

Lemma peers_split peers :
  (peers_up peers + peers_not_up peers = length peers)%nat.
Proof.
  unfold peers_up, peers_not_up.
  induction peers as [|p peers IH]; simpl; [reflexivity|].
  destruct (String.eqb (State p) "up"); simpl; lia.
Qed.

(** The counting loop adds the number of "up" peers to its counter, as
    long as the counter stays an [int]. *)
Lemma count_up_spec peers acc :
  0 <= acc -> acc + len peers <= MaxInt ->
  count_up peers acc = acc + Z.of_nat (peers_up peers).
Proof.
  revert acc. unfold len, peers_up.
  induction peers as [|p peers IH]; intros acc Hacc Hmax; simpl.
  - lia.
  - simpl in Hmax. destruct (String.eqb (State p) "up"); simpl.
    + unfold int_add. rewrite wrap_int_id by (unfold is_int, MinInt; lia).
      rewrite IH; lia.
    + rewrite IH; lia.
Qed.

Lemma calculateStatsFor_ok upstream res :
  Peers res <> [] -> len (Peers res) <= MaxInt ->
  calculateStatsFor upstream res =
    Ok {| Total := len (Peers res);
          Up := Z.of_nat (peers_up (Peers res));
          Down := len (Peers res) - Z.of_nat (peers_up (Peers res)) |}.
Proof.
  intros Hne Hmax. unfold calculateStatsFor.
  assert (Hlen : 1 <= len (Peers res)).
  { unfold len. destruct (Peers res); [congruence | simpl; lia]. }
  destruct (Z.ltb_spec (len (Peers res)) 1) as [|_]; [lia|].
  rewrite count_up_spec by lia. simpl.
  unfold int_sub. rewrite wrap_int_id; [reflexivity|].
  pose proof (peers_up_le (Peers res)).
  unfold is_int, MinInt, len in *. lia.
Qed.

Lemma calculateStatsFor_empty upstream res :
  Peers res = [] ->
  calculateStatsFor upstream res = Err (errorString "no servers in upstream").
Proof. intros H. unfold calculateStatsFor. rewrite H. reflexivity. Qed.

Lemma calculateStatsFor_total upstream res s :
  calculateStatsFor upstream res = Ok s ->
  Total s = len (Peers res) /\ 1 <= Total s.
Proof.
  unfold calculateStatsFor.
  destruct (Z.ltb_spec (len (Peers res)) 1) as [|Hlen]; [discriminate|].
  intros [= <-]. simpl. lia.
Qed.

(** C2: for a non-empty peer list (of a length that is an [int], as the
    length of every Go slice is) the reduction succeeds with Total the
    number of peers, Up the number of peers whose state is the string
    "up", and Down equal to Total - Up, which is the number of peers in
    any other state. *)
Theorem calculateStatsFor_counts upstream res :
  Peers res <> [] -> len (Peers res) <= MaxInt ->
  exists s,
    calculateStatsFor upstream res = Ok s /\
    Total s = Z.of_nat (length (Peers res)) /\
    Up s = Z.of_nat (peers_up (Peers res)) /\
    Down s = Total s - Up s /\
    Down s = Z.of_nat (peers_not_up (Peers res)).
Proof.
  intros Hne Hmax. eexists. split; [apply calculateStatsFor_ok; assumption|].
  simpl. pose proof (peers_split (Peers res)). unfold len. repeat split; lia.
Qed.

Lemma calculateStatsFor_counts_witness :
  exists s,
    calculateStatsFor "demo-backend"
      (upstream_with ["up"; "unavail"; "unhealthy"; "down"; "UP"; "up"])
    = Ok s /\
    Total s = 6 /\ Up s = 2 /\ Down s = 4.
Proof.
  destruct (calculateStatsFor_counts "demo-backend"
              (upstream_with ["up"; "unavail"; "unhealthy"; "down"; "UP"; "up"]))
    as (s & Hs & Ht & Hu & Hd & _).
  - discriminate.
  - vm_compute. discriminate.
  - exists s. split; [exact Hs|].
    rewrite Hd, Hu, Ht. vm_compute. auto.
Defined.

(** On success the reduction reports at least one peer. *)
Lemma GetStatsFor_total c upstream s :
  GetStatsFor c upstream = Ok s -> 1 <= Total s.
Proof.
  unfold GetStatsFor.
  destruct (get c (upstream_url c upstream) unmarshal_upstream) as [res|err];
    [|discriminate].
  intros H. apply calculateStatsFor_total in H. tauto.
Qed.

(** C5: the reduction returns an error exactly when the peer list is
    empty, and the error is the empty-upstream one; so [GetStatsFor] on a
    response that decodes to zero peers fails with that error, and no
    call of [GetStatsFor] ever succeeds with the zero-value Stats. *)
Theorem empty_upstream_is_error c upstream res :
  (is_err (calculateStatsFor upstream res) = true <-> Peers res = []) /\
  (Peers res = [] ->
   calculateStatsFor upstream res =
     Err (errorString "no servers in upstream")) /\
  (get c (upstream_url c upstream) unmarshal_upstream = Ok res ->
   Peers res = [] ->
   GetStatsFor c upstream = Err (errorString "no servers in upstream")) /\
  GetStatsFor c upstream <> Ok Stats_zero.
Proof.
  split; [|split; [|split]].
  - split.
    + unfold calculateStatsFor, len.
      destruct (Peers res) as [|p peers]; [reflexivity|].
      destruct (Z.ltb_spec (Z.of_nat (length (p :: peers))) 1) as [Hlt|_];
        [simpl in Hlt; lia | discriminate].
    + intros H. rewrite calculateStatsFor_empty by exact H. reflexivity.
  - apply calculateStatsFor_empty.
  - intros Hget Hnil. unfold GetStatsFor. rewrite Hget.
    apply calculateStatsFor_empty, Hnil.
  - intros H. apply GetStatsFor_total in H. simpl in H. lia.
Qed.

Lemma empty_upstream_is_error_witness :
  GetStatsFor
    (client_of (fun _ => exchange_ok (Ok (upstream_with [])) (Ok VNil)))
    "no-such-backend"
  = Err (errorString "no servers in upstream").
Proof.
  pose proof (empty_upstream_is_error
    (client_of (fun _ => exchange_ok (Ok (upstream_with [])) (Ok VNil)))
    "no-such-backend" (upstream_with [])) as (_ & _ & H & _).
  apply H; reflexivity.
Defined.

(** ** Hostname derivation *)

Lemma Split_not_nil s sep : Split s sep <> [].
Proof.
  destruct s as [|c rest]; simpl; [discriminate|].
  destruct (Ascii.eqb c sep); [discriminate|].
  destruct (Split rest sep); discriminate.
Qed.

(** A string without the separator is its own single segment. *)
Lemma Split_no_sep s sep : contains_byte s sep = false -> Split s sep = [s].
Proof.
  induction s as [|c rest IH]; simpl; [reflexivity|].
  destruct (Ascii.eqb c sep); simpl; [discriminate|].
  intros H. rewrite (IH H). reflexivity.
Qed.

(** The first segment ends at the first occurrence of the separator. *)
Lemma Split_first_sep pre post sep :
  contains_byte pre sep = false ->
  Split (pre +:+ String sep post) sep = pre :: Split post sep.
Proof.
  induction pre as [|c rest IH]; simpl.
  - intros _. rewrite Ascii.eqb_refl. reflexivity.
  - destruct (Ascii.eqb c sep); simpl; [discriminate|].
    intros H. rewrite (IH H). reflexivity.
Qed.

Lemma derive_hostname_returns zone :
  exists host, derive_hostname zone = Ret host.
Proof.
  unfold derive_hostname, slice_index.
  pose proof (Split_not_nil zone hyphen) as Hne.
  destruct (Split zone hyphen) as [|host segs]; [congruence|].
  exists host. reflexivity.
Qed.

(** C3, as the code has it: the derivation never fails; a zone without a
    '-' derives the whole string; a zone with a '-' derives the segment
    to the left of the first one.  So "bar.example.org-lxr-backend"
    derives "bar.example.org", and "demo-backend", which has a '-',
    derives "demo". *)
Theorem derive_hostname_first_segment zone :
  exists host,
    derive_hostname zone = Ret host /\
    (contains_byte zone hyphen = false -> host = zone) /\
    (forall pre post,
        zone = pre +:+ String hyphen post ->
        contains_byte pre hyphen = false -> host = pre) /\
    derive_hostname "bar.example.org-lxr-backend" = Ret "bar.example.org" /\
    derive_hostname "demo-backend" = Ret "demo".
Proof.
  destruct (derive_hostname_returns zone) as [host Hhost].
  exists host. split; [exact Hhost|].
  unfold derive_hostname, slice_index in *.
  split; [|split; [|split; reflexivity]].
  - intros Hno. rewrite (Split_no_sep _ _ Hno) in Hhost.
    simpl in Hhost. congruence.
  - intros pre post -> Hno. rewrite (Split_first_sep _ _ _ Hno) in Hhost.
    simpl in Hhost. congruence.
Qed.

Lemma derive_hostname_first_segment_witness :
  derive_hostname "foo.example.com-demo-backend" = Ret "foo.example.com".
Proof.
  destruct (derive_hostname_first_segment "foo.example.com-demo-backend")
    as (host & Hhost & _ & Hpre & _).
  rewrite Hhost. f_equal.
  apply (Hpre "foo.example.com" "demo-backend"); reflexivity.
Defined.

(** C3 as stated fails on its own example: the zone "demo-backend" does
    not derive the hostname "demo-backend". *)
Lemma derive_hostname_demo_backend :
  contains_byte "demo-backend" hyphen = true /\
  derive_hostname "demo-backend" = Ret "demo" /\
  derive_hostname "demo-backend" <> Ret "demo-backend".
Proof. repeat split. vm_compute. discriminate. Qed.

(** ** The zone/hostname resolver *)

Lemma entry_matches_host hostname u v :
  entry_matches hostname (u, v) = true <-> entry_hostname v = Some hostname.
Proof.
  unfold entry_matches. simpl.
  destruct (entry_hostname v) as [host|]; [|split; discriminate].
  rewrite String.eqb_eq. split; congruence.
Qed.

(** One iteration appends the upstream's name under the hostname key when
    the entry matches, and leaves the map alone otherwise. *)
Lemma range_body_spec hostname (hostUpstreams : gmap string (list string)) u v :
  range_body hostname hostUpstreams u v =
    Ret (if entry_matches hostname (u, v)
         then <[hostname := (default [] (hostUpstreams !! hostname) ++ [u])%list]>
                hostUpstreams
         else hostUpstreams).
Proof.
  unfold range_body, entry_matches, entry_hostname. simpl.
  destruct (as_map v) as [value|]; [|reflexivity].
  destruct (as_string (map_index value "zone")) as [zone|]; [|reflexivity].
  destruct (derive_hostname_returns zone) as [host ->]. simpl.
  destruct (String.eqb_spec host hostname) as [->|_]; simpl; [|reflexivity].
  destruct (hostUpstreams !! hostname); reflexivity.
Qed.

Lemma range_entries_spec hostname m (hostUpstreams : gmap string (list string)) :
  range_entries hostname m hostUpstreams =
    Ret (match matching_upstreams hostname m with
         | [] => hostUpstreams
         | ux =>
             <[hostname := (default [] (hostUpstreams !! hostname) ++ ux)%list]>
               hostUpstreams
         end).
Proof.
  revert hostUpstreams. unfold matching_upstreams.
  induction m as [|[u v] m IH]; intros hostUpstreams; simpl; [reflexivity|].
  rewrite range_body_spec. simpl. rewrite IH.
  destruct (entry_matches hostname (u, v)); simpl; [|reflexivity].
  rewrite lookup_insert_eq. simpl.
  destruct (map fst (List.filter (entry_matches hostname) m)) as [|u' ux].
  - reflexivity.
  - rewrite insert_insert_eq, <- app_assoc. reflexivity.
Qed.

(** On a map the resolver returns: nothing when no entry matches, and
    otherwise the one key [hostname] with the matching names in the order
    the entries were visited. *)
Lemma hostnameUpstreamsFromResponse_map hostname entries :
  hostnameUpstreamsFromResponse hostname (VMap entries) =
    Ret (match matching_upstreams hostname entries with
         | [] => ∅
         | ux => {[hostname := ux]}
         end).
Proof.
  unfold hostnameUpstreamsFromResponse. simpl.
  rewrite range_entries_spec, lookup_empty. simpl.
  destruct (matching_upstreams hostname entries); reflexivity.
Qed.

Lemma matching_upstreams_In hostname entries u :
  In u (matching_upstreams hostname entries) <->
  exists v, In (u, v) entries /\ entry_hostname v = Some hostname.
Proof.
  unfold matching_upstreams. rewrite in_map_iff. split.
  - intros [[u' v] [Hu Hin]]. simpl in Hu. subst u'.
    apply filter_In in Hin as [Hin Hm]. exists v. split; [exact Hin|].
    apply entry_matches_host in Hm. exact Hm.
  - intros [v [Hin Hm]]. exists (u, v). split; [reflexivity|].
    apply filter_In. split; [exact Hin|].
    apply entry_matches_host. exact Hm.
Qed.

Lemma matching_upstreams_NoDup hostname entries :
  distinct_keys entries -> NoDup (matching_upstreams hostname entries).
Proof.
  unfold distinct_keys, matching_upstreams.
  induction entries as [|[u v] entries IH]; simpl; intros Hnd.
  - constructor.
  - apply NoDup_cons in Hnd as [Hnotin Hnd].
    destruct (entry_matches hostname (u, v)); simpl; [|apply IH, Hnd].
    apply NoDup_cons. split; [|apply IH, Hnd].
    intros Hin. apply Hnotin.
    apply list_elem_of_In, in_map_iff in Hin as [[u' v'] [Hu Hin]].
    apply filter_In in Hin as [Hin _]. simpl in Hu. subst u'.
    apply list_elem_of_In, in_map_iff. exists (u, v'). auto.
Qed.

Lemma GetUpstreamsFor_map c hostname entries :
  get c (zones_url c) unmarshal_any = Ok (VMap entries) ->
  GetUpstreamsFor c hostname =
    Ret (Ok (match matching_upstreams hostname entries with
             | [] => ∅
             | ux => {[hostname := ux]}
             end)).
Proof.
  intros Hget. unfold GetUpstreamsFor. rewrite Hget.
  rewrite hostnameUpstreamsFromResponse_map. reflexivity.
Qed.

(** C7: when the zone query decodes to a map, [GetUpstreamsFor] returns,
    without error and without panic, a mapping whose only possible key is
    the requested hostname; the names listed under it are exactly the
    names of the entries whose derived hostname is the requested one
    (each once when the keys of the map are distinct, in the order the
    entries were visited); and when no entry matches, the mapping is
    empty. *)
Theorem GetUpstreamsFor_groups_matching c hostname entries :
  get c (zones_url c) unmarshal_any = Ok (VMap entries) ->
  exists m : gmap string (list string),
    GetUpstreamsFor c hostname = Ret (Ok m) /\
    (forall host, is_Some (m !! host) -> host = hostname) /\
    (forall u,
        (exists ux, m !! hostname = Some ux /\ In u ux) <->
        (exists v, In (u, v) entries /\ entry_hostname v = Some hostname)) /\
    (forall ux,
        m !! hostname = Some ux ->
        ux = matching_upstreams hostname entries /\
        (distinct_keys entries -> NoDup ux)) /\
    ((forall u v, In (u, v) entries -> entry_hostname v <> Some hostname) ->
     m = ∅).
Proof.
  intros Hget. eexists. split; [apply GetUpstreamsFor_map, Hget|].
  pose proof (matching_upstreams_In hostname entries) as Hin.
  pose proof (matching_upstreams_NoDup hostname entries) as Hnd.
  destruct (matching_upstreams hostname entries) as [|u0 ux0] eqn:Hm.
  - repeat split.
    + intros host [ux Hux]. rewrite lookup_empty in Hux. discriminate.
    + intros (ux & Hux & _). rewrite lookup_empty in Hux. discriminate.
    + intros Hex. apply Hin in Hex. destruct Hex.
    + rewrite lookup_empty in H. discriminate.
    + rewrite lookup_empty in H. discriminate.
  - repeat split.
    + intros host [ux Hux].
      apply lookup_singleton_Some in Hux as [Hhost _]. congruence.
    + intros (ux & Hux & Hu). rewrite lookup_singleton_eq in Hux.
      injection Hux as <-. apply Hin, Hu.
    + intros Hex. exists (u0 :: ux0). rewrite lookup_singleton_eq.
      split; [reflexivity|]. apply Hin, Hex.
    + rewrite lookup_singleton_eq in H. congruence.
    + rewrite lookup_singleton_eq in H. injection H as <-. exact Hnd.
    + intros Hnone. exfalso.
      destruct (proj1 (Hin u0) (or_introl eq_refl)) as (v & Hv & Hh).
      exact (Hnone u0 v Hv Hh).
Qed.

Lemma GetUpstreamsFor_groups_matching_witness :
  exists m : gmap string (list string),
    GetUpstreamsFor
      (client_of (fun _ => exchange_ok (Err (errorString "unused")) (Ok sample_zones)))
      "bar.example.org"
    = Ret (Ok m) /\
    (forall host, is_Some (m !! host) -> host = "bar.example.org") /\
    (forall ux, m !! "bar.example.org" = Some ux ->
                ux = ["hg-backend"; "lxr-backend"]).
Proof.
  destruct (GetUpstreamsFor_groups_matching
    (client_of (fun _ => exchange_ok (Err (errorString "unused")) (Ok sample_zones)))
    "bar.example.org"
    [("demo-backend", zone_entry "foo.example.com-demo-backend");
     ("trac-backend", zone_entry "bar.example.com-trac-backend");
     ("hg-backend", zone_entry "bar.example.org-hg-backend");
     ("lxr-backend", zone_entry "bar.example.org-lxr-backend")])
    as (m & Hm & Hkeys & _ & Hux & _).
  - reflexivity.
  - exists m. split; [exact Hm|]. split; [exact Hkeys|].
    intros ux Hlook. destruct (Hux ux Hlook) as [-> _]. reflexivity.
Defined.

(** The resolver on the zone map of the package's tests. *)
Example GetUpstreamsFor_sample_zones :
  GetUpstreamsFor
    (client_of (fun _ => exchange_ok (Err (errorString "unused")) (Ok sample_zones)))
    "bar.example.org"
  = Ret (Ok {[ "bar.example.org" := ["hg-backend"; "lxr-backend"] ]}).
Proof.
  erewrite GetUpstreamsFor_map by reflexivity. reflexivity.
Qed.

(** C10: when the zone query succeeds with a decoded value that is not a
    map (null, a bool, a number, a string, an array), [GetUpstreamsFor]
    panics: it returns neither a mapping nor an error.  On a map it never
    panics, and an entry whose value is not a map, or whose "zone" is
    missing or not a string, is skipped: the result is the one obtained
    without the entry. *)
Theorem non_object_response_panics c hostname :
  (forall v,
      get c (zones_url c) unmarshal_any = Ok v -> as_map v = None ->
      exists msg, GetUpstreamsFor c hostname = Panic msg) /\
  (forall entries,
      exists m, hostnameUpstreamsFromResponse hostname (VMap entries) = Ret m) /\
  (forall before u e after,
      as_map e = None \/
      (exists value,
          as_map e = Some value /\ as_string (map_index value "zone") = None) ->
      hostnameUpstreamsFromResponse hostname (VMap (before ++ (u, e) :: after)) =
      hostnameUpstreamsFromResponse hostname (VMap (before ++ after))).
Proof.
  split; [|split].
  - intros v Hget Hmap. unfold GetUpstreamsFor. rewrite Hget.
    unfold hostnameUpstreamsFromResponse. rewrite Hmap. simpl. eauto.
  - intros entries. rewrite hostnameUpstreamsFromResponse_map. eauto.
  - intros before u e after Hshape.
    rewrite !hostnameUpstreamsFromResponse_map. unfold matching_upstreams.
    rewrite !List.filter_app. simpl.
    replace (entry_matches hostname (u, e)) with false; [reflexivity|].
    unfold entry_matches, entry_hostname. simpl.
    destruct Hshape as [-> | (value & -> & ->)]; reflexivity.
Qed.

Lemma non_object_response_panics_witness :
  exists msg,
    GetUpstreamsFor
      (client_of (fun _ => exchange_ok (Err (errorString "unused"))
                             (Ok (VSlice [VString "hg-backend"]))))
      "bar.example.org"
    = Panic msg.
Proof.
  destruct (non_object_response_panics
    (client_of (fun _ => exchange_ok (Err (errorString "unused"))
                           (Ok (VSlice [VString "hg-backend"]))))
    "bar.example.org") as (Hpanic & _).
  apply (Hpanic (VSlice [VString "hg-backend"])); reflexivity.
Defined.

(** ** The concurrent aggregator *)

Lemma Stats_eq (a b : Stats) :
  Total a = Total b -> Up a = Up b -> Down a = Down b -> a = b.
Proof. destruct a, b. simpl. congruence. Qed.

Section Accumulator.

(** One of the three accumulators, and what each operation adds to it. *)
Variable field : counters -> Z.
Variable delta : event -> Z.
Hypothesis field_step :
  forall s e, uint64 (field (atomic_step s e)) = uint64 (field s + delta e).

Lemma fold_field trace s :
  uint64 (field (fold_left atomic_step trace s)) =
  uint64 (field s + sum_deltas delta trace).
Proof.
  revert s. induction trace as [|e trace IH]; intros s; simpl.
  - f_equal. lia.
  - rewrite IH. unfold uint64 in *.
    rewrite <- Zplus_mod_idemp_l, field_step, Zplus_mod_idemp_l.
    f_equal. lia.
Qed.

End Accumulator.

Lemma total_step s e :
  uint64 (total (atomic_step s e)) = uint64 (total s + delta_total e).
Proof.
  destruct e; simpl; rewrite ?Z.add_0_r; try reflexivity.
  unfold uint64, uint64_add. apply Zmod_mod.
Qed.

Lemma up_step s e :
  uint64 (up (atomic_step s e)) = uint64 (up s + delta_up e).
Proof.
  destruct e; simpl; rewrite ?Z.add_0_r; try reflexivity.
  unfold uint64, uint64_add. apply Zmod_mod.
Qed.

Lemma down_step s e :
  uint64 (down (atomic_step s e)) = uint64 (down s + delta_down e).
Proof.
  destruct e; simpl; rewrite ?Z.add_0_r; try reflexivity.
  unfold uint64, uint64_add. apply Zmod_mod.
Qed.

Lemma sum_deltas_Permutation delta trace trace' :
  Permutation trace trace' -> sum_deltas delta trace = sum_deltas delta trace'.
Proof.
  induction 1; simpl; lia.
Qed.

Lemma sum_deltas_app delta trace trace' :
  sum_deltas delta (trace ++ trace') =
  sum_deltas delta trace + sum_deltas delta trace'.
Proof.
  induction trace as [|e trace IH]; simpl; lia.
Qed.

(** An interleaving is a rearrangement of the goroutines' operations. *)
Lemma interleaving_Permutation threads trace :
  interleaving threads trace -> Permutation trace (concat threads).
Proof.
  induction 1 as [threads Hnil | before e t after trace _ IH].
  - induction Hnil as [|t threads -> _ IH]; simpl; [constructor | exact IH].
  - rewrite concat_app in *. simpl in *.
    rewrite IH. apply Permutation_middle.
Qed.

Lemma interleaving_idle threads trace :
  interleaving threads trace -> interleaving ([] :: threads) trace.
Proof.
  induction 1 as [threads Hnil | before e t after trace _ IH].
  - apply interleaving_done. constructor; [reflexivity | exact Hnil].
  - apply (interleaving_step ([] :: before)). exact IH.
Qed.

(** Running the goroutines one after the other is an interleaving: the
    barrier is always reached. *)
Lemma interleaving_sequential threads :
  interleaving threads (concat threads).
Proof.
  induction threads as [|t threads IH]; simpl.
  - apply interleaving_done. constructor.
  - induction t as [|e t IHt]; simpl.
    + apply interleaving_idle, IH.
    + apply (interleaving_step [] e t threads). exact IHt.
Qed.

(** What the goroutines add, all together, to one accumulator: the
    field's values over the fetches that succeeded, modulo [2^64]. *)
Lemma sum_deltas_goroutines delta field fetched :
  (forall stat,
      sum_deltas delta (goroutine (Ok stat)) = uint64 (field stat)) ->
  uint64 (sum_deltas delta (concat (map goroutine fetched))) =
  uint64 (sum_field field (succeeded fetched)).
Proof.
  intros Hok. induction fetched as [|[stat|err] fetched IH].
  - reflexivity.
  - cbn [map concat succeeded sum_field fold_right].
    rewrite sum_deltas_app, Hok.
    fold (sum_field field (succeeded fetched)).
    unfold uint64 in *.
    rewrite Zplus_mod_idemp_l, <- Zplus_mod_idemp_r, IH, Zplus_mod_idemp_r.
    reflexivity.
  - exact IH.
Qed.

(** Each field of the [int] sum is the integer sum of the field, reduced
    to [int]. *)
Lemma stats_sum_fields l :
  Total (stats_sum l) = wrap_int (sum_field Total l) /\
  Up (stats_sum l) = wrap_int (sum_field Up l) /\
  Down (stats_sum l) = wrap_int (sum_field Down l).
Proof.
  induction l as [|stat l (IHt & IHu & IHd)]; simpl.
  - repeat split; reflexivity.
  - rewrite IHt, IHu, IHd. unfold int_add.
    rewrite !wrap_int_add_r. repeat split; reflexivity.
Qed.

Lemma sum_field_Permutation field l l' :
  Permutation l l' -> sum_field field l = sum_field field l'.
Proof. induction 1; simpl; lia. Qed.

Lemma stats_sum_Permutation l l' :
  Permutation l l' -> stats_sum l = stats_sum l'.
Proof.
  intros Hperm.
  destruct (stats_sum_fields l) as (Ht & Hu & Hd).
  destruct (stats_sum_fields l') as (Ht' & Hu' & Hd').
  apply Stats_eq.
  - rewrite Ht, Ht'. f_equal. apply sum_field_Permutation, Hperm.
  - rewrite Hu, Hu'. f_equal. apply sum_field_Permutation, Hperm.
  - rewrite Hd, Hd'. f_equal. apply sum_field_Permutation, Hperm.
Qed.

(** What the counters hold after any rearrangement of the goroutines'
    operations. *)
Lemma read_counters_trace fetched trace :
  Permutation trace (concat (map goroutine fetched)) ->
  read_counters (run_trace trace) = stats_sum (succeeded fetched).
Proof.
  intros Hperm.
  destruct (stats_sum_fields (succeeded fetched)) as (Ht & Hu & Hd).
  unfold run_trace, read_counters, int_of_uint64.
  apply Stats_eq; simpl.
  - rewrite Ht, <- wrap_int_mod.
    change (wrap_int (uint64 (total (fold_left atomic_step trace counters_zero)))
            = wrap_int (sum_field Total (succeeded fetched))).
    rewrite (fold_field total delta_total total_step). simpl (total counters_zero).
    rewrite Z.add_0_l.
    rewrite (sum_deltas_Permutation _ _ _ Hperm).
    rewrite (sum_deltas_goroutines delta_total Total) by (intros; simpl; lia).
    apply wrap_int_mod.
  - rewrite Hu, <- wrap_int_mod.
    change (wrap_int (uint64 (up (fold_left atomic_step trace counters_zero)))
            = wrap_int (sum_field Up (succeeded fetched))).
    rewrite (fold_field up delta_up up_step). simpl (up counters_zero).
    rewrite Z.add_0_l.
    rewrite (sum_deltas_Permutation _ _ _ Hperm).
    rewrite (sum_deltas_goroutines delta_up Up) by (intros; simpl; lia).
    apply wrap_int_mod.
  - rewrite Hd, <- wrap_int_mod.
    change (wrap_int (uint64 (down (fold_left atomic_step trace counters_zero)))
            = wrap_int (sum_field Down (succeeded fetched))).
    rewrite (fold_field down delta_down down_step). simpl (down counters_zero).
    rewrite Z.add_0_l.
    rewrite (sum_deltas_Permutation _ _ _ Hperm).
    rewrite (sum_deltas_goroutines delta_down Down) by (intros; simpl; lia).
    apply wrap_int_mod.
Qed.

(** Every schedule returns the same value: the one computed by running
    the goroutines in sequence. *)
Lemma merge_returns_iff fetched stat :
  merge_returns fetched stat <-> stat = merge fetched.
Proof.
  unfold merge_returns, merge. split.
  - intros (trace & Hil & ->).
    rewrite (read_counters_trace fetched trace)
      by apply interleaving_Permutation, Hil.
    rewrite (read_counters_trace fetched (concat (map goroutine fetched)))
      by reflexivity.
    reflexivity.
  - intros ->. exists (concat (map goroutine fetched)).
    split; [apply interleaving_sequential | reflexivity].
Qed.

Lemma merge_stats_sum fetched : merge fetched = stats_sum (succeeded fetched).
Proof. apply read_counters_trace. reflexivity. Qed.

Lemma GetStatsForUpstreams_deterministic c upstreams stat :
  GetStatsForUpstreams_returns c upstreams stat <->
  stat = GetStatsForUpstreams c upstreams.
Proof. apply merge_returns_iff. Qed.

Lemma succeeded_app fetched fetched' :
  succeeded (fetched ++ fetched') = (succeeded fetched ++ succeeded fetched')%list.
Proof.
  induction fetched as [|[stat|err] fetched IH]; simpl; congruence.
Qed.

Lemma succeeded_Permutation fetched fetched' :
  Permutation fetched fetched' ->
  Permutation (succeeded fetched) (succeeded fetched').
Proof.
  induction 1 as [|[stat|err] l l' _ IH|[s1|e1] [s2|e2] l|l l' l'' _ IH1 _ IH2];
    simpl.
  - constructor.
  - constructor. exact IH.
  - exact IH.
  - apply perm_swap.
  - reflexivity.
  - reflexivity.
  - reflexivity.
  - etransitivity; eassumption.
Qed.

(** C1: whatever each upstream's fetch returns, the call reaches its
    barrier under every schedule and returns the component-wise sum of
    the Stats of the fetches that succeeded (a sum of [int]s, which is
    the integer sum whenever that is an [int]); an upstream whose fetch
    fails adds nothing and the call still returns; the empty list gives
    the zero Stats. *)
Theorem GetStatsForUpstreams_sums_successes
    (fetch : string -> result Stats) (upstreams : list string) :
  (exists stat, merge_returns (map fetch upstreams) stat) /\
  (forall stat,
      merge_returns (map fetch upstreams) stat ->
      stat = stats_sum (succeeded (map fetch upstreams))) /\
  (is_int (sum_field Total (succeeded (map fetch upstreams))) ->
   is_int (sum_field Up (succeeded (map fetch upstreams))) ->
   is_int (sum_field Down (succeeded (map fetch upstreams))) ->
   stats_sum (succeeded (map fetch upstreams)) =
     {| Total := sum_field Total (succeeded (map fetch upstreams));
        Up := sum_field Up (succeeded (map fetch upstreams));
        Down := sum_field Down (succeeded (map fetch upstreams)) |}) /\
  (forall before u after,
      upstreams = (before ++ u :: after)%list -> is_err (fetch u) = true ->
      succeeded (map fetch upstreams) = succeeded (map fetch (before ++ after))) /\
  (forall stat, merge_returns (map fetch []) stat -> stat = Stats_zero) /\
  (forall c stat,
      GetStatsForUpstreams_returns c upstreams stat <->
      stat = stats_sum (succeeded (map (GetStatsFor c) upstreams))).
Proof.
  split; [|split; [|split; [|split; [|split]]]].
  - exists (merge (map fetch upstreams)). apply merge_returns_iff. reflexivity.
  - intros stat Hret. apply merge_returns_iff in Hret.
    rewrite Hret. apply merge_stats_sum.
  - intros Ht Hu Hd.
    destruct (stats_sum_fields (succeeded (map fetch upstreams)))
      as (Et & Eu & Ed).
    apply Stats_eq; simpl.
    + rewrite Et. apply wrap_int_id, Ht.
    + rewrite Eu. apply wrap_int_id, Hu.
    + rewrite Ed. apply wrap_int_id, Hd.
  - intros before u after -> Herr.
    rewrite !map_app, !succeeded_app. simpl.
    destruct (fetch u); [discriminate | reflexivity].
  - intros stat Hret. apply merge_returns_iff in Hret. exact Hret.
  - intros c stat. unfold GetStatsForUpstreams_returns.
    rewrite merge_returns_iff, merge_stats_sum. reflexivity.
Qed.

Lemma GetStatsForUpstreams_sums_successes_witness :
  GetStatsForUpstreams_returns sample_client ["lxr-backend"; "trac-backend"]
    {| Total := 2; Up := 2; Down := 0 |} /\
  stats_sum
    (succeeded (map (GetStatsFor sample_client) ["lxr-backend"; "trac-backend"]))
  = {| Total := 2; Up := 2; Down := 0 |}.
Proof.
  destruct (GetStatsForUpstreams_sums_successes
              (GetStatsFor sample_client) ["lxr-backend"; "trac-backend"])
    as (_ & _ & Hexact & _ & _ & Hclient).
  split.
  - apply Hclient. vm_compute. reflexivity.
  - rewrite Hexact.
    + vm_compute. reflexivity.
    + vm_compute. split; discriminate.
    + vm_compute. split; discriminate.
    + vm_compute. split; discriminate.
Defined.

(** The end-to-end scenario of the package's tests. *)
Example GetStatsForUpstreams_sample :
  GetStatsForUpstreams sample_client ["hg-backend"; "lxr-backend"]
  = {| Total := 4; Up := 3; Down := 1 |}.
Proof. vm_compute. reflexivity. Qed.

Lemma stats_add_comm a b : stats_add a b = stats_add b a.
Proof. unfold stats_add. apply Stats_eq; simpl; apply int_add_comm. Qed.

Lemma stats_add_assoc a b c :
  stats_add (stats_add a b) c = stats_add a (stats_add b c).
Proof. unfold stats_add. apply Stats_eq; simpl; apply int_add_assoc. Qed.

(** Two atomic additions give the same counters in either order. *)
Lemma atomic_step_swap s e e' :
  atomic_step (atomic_step s e) e' = atomic_step (atomic_step s e') e.
Proof.
  destruct e, e'; simpl; try reflexivity;
    rewrite uint64_add_swap; reflexivity.
Qed.

(** C4: with the outcome of each upstream's fetch fixed, the value
    returned for a list of names and the value returned for any
    permutation of it are the same, whatever the two schedules: the
    component-wise sum is commutative and associative, and the atomic
    additions commute. *)
Theorem GetStatsForUpstreams_order_independent
    (fetch : string -> result Stats) (upstreams upstreams' : list string) :
  Permutation upstreams upstreams' ->
  (forall stat stat',
      merge_returns (map fetch upstreams) stat ->
      merge_returns (map fetch upstreams') stat' ->
      stat = stat') /\
  (forall c,
      GetStatsForUpstreams c upstreams = GetStatsForUpstreams c upstreams') /\
  (forall a b, stats_add a b = stats_add b a) /\
  (forall a b c, stats_add (stats_add a b) c = stats_add a (stats_add b c)) /\
  (forall s e e',
      atomic_step (atomic_step s e) e' = atomic_step (atomic_step s e') e).
Proof.
  intros Hperm.
  assert (Hsum : forall f : string -> result Stats,
             merge (map f upstreams) = merge (map f upstreams')).
  { intros f. rewrite !merge_stats_sum.
    apply stats_sum_Permutation, succeeded_Permutation, Permutation_map, Hperm. }
  split; [|split; [|split; [|split]]].
  - intros stat stat' Hret Hret'.
    apply merge_returns_iff in Hret, Hret'. rewrite Hret, Hret'. apply Hsum.
  - intros c. apply Hsum.
  - apply stats_add_comm.
  - apply stats_add_assoc.
  - apply atomic_step_swap.
Qed.

Lemma GetStatsForUpstreams_order_independent_witness :
  GetStatsForUpstreams sample_client ["hg-backend"; "trac-backend"; "lxr-backend"]
  = GetStatsForUpstreams sample_client ["lxr-backend"; "hg-backend"; "trac-backend"].
Proof.
  destruct (GetStatsForUpstreams_order_independent (GetStatsFor sample_client)
              ["hg-backend"; "trac-backend"; "lxr-backend"]
              ["lxr-backend"; "hg-backend"; "trac-backend"]) as (_ & Hclient & _).
  - change (Permutation (["hg-backend"; "trac-backend"] ++ ["lxr-backend"])
              ("lxr-backend" :: ["hg-backend"; "trac-backend"] ++ [])).
    apply Permutation_sym, Permutation_middle.
  - apply Hclient.
Defined.

(** ** The invariant [Up + Down == Total] *)

Lemma calculateStatsFor_consistent upstream res s :
  len (Peers res) <= MaxInt ->
  calculateStatsFor upstream res = Ok s -> stats_consistent s.
Proof.
  intros Hmax Hs.
  assert (Hne : Peers res <> []).
  { intros Hnil. rewrite (calculateStatsFor_empty _ _ Hnil) in Hs.
    discriminate. }
  rewrite (calculateStatsFor_ok _ _ Hne Hmax) in Hs. injection Hs as <-.
  pose proof (peers_up_le (Peers res)).
  unfold stats_consistent, len. simpl. lia.
Qed.

Lemma GetStatsFor_calculated c upstream s :
  GetStatsFor c upstream = Ok s ->
  exists res, calculateStatsFor upstream res = Ok s.
Proof.
  unfold GetStatsFor.
  destruct (get c (upstream_url c upstream) unmarshal_upstream) as [res|err];
    [|discriminate].
  intros H. exists res. exact H.
Qed.

Lemma sum_field_consistent l :
  Forall stats_consistent l ->
  0 <= sum_field Up l /\ 0 <= sum_field Down l /\
  sum_field Up l + sum_field Down l = sum_field Total l.
Proof.
  induction 1 as [|s l (Hu & Hd & Ht & Heq) _ IH]; simpl; lia.
Qed.

Lemma sum_field_equation l :
  Forall (fun s => Up s + Down s = Total s) l ->
  sum_field Up l + sum_field Down l = sum_field Total l.
Proof.
  induction 1 as [|s l Heq _ IH]; simpl; lia.
Qed.

Lemma sum_field_member l s :
  Forall (fun s => 0 <= Total s) l -> In s l -> Total s <= sum_field Total l.
Proof.
  induction 1 as [|s' l Hs' Hl IH]; simpl; [tauto|].
  assert (0 <= sum_field Total l).
  { clear IH. induction Hl; simpl; lia. }
  intros [-> | Hin]; [lia|]. specialize (IH Hin). lia.
Qed.

Lemma succeeded_In fetched s : In s (succeeded fetched) <-> In (Ok s) fetched.
Proof.
  induction fetched as [|[s'|err] fetched IH]; simpl.
  - tauto.
  - rewrite IH. split; intros [H|H]; auto; left; congruence.
  - rewrite IH. split; [auto|]. intros [H|H]; [discriminate | exact H].
Qed.

(** The merge of consistent Stats is consistent when the peers counted
    fit an [int]. *)
Lemma merge_consistent fetched stat :
  (forall s, In (Ok s) fetched -> stats_consistent s) ->
  sum_field Total (succeeded fetched) <= MaxInt ->
  merge_returns fetched stat -> stats_consistent stat.
Proof.
  intros Hall Hmax Hret. apply merge_returns_iff in Hret.
  rewrite merge_stats_sum in Hret. subst stat.
  assert (Hcons : Forall stats_consistent (succeeded fetched)).
  { apply List.Forall_forall. intros s Hs. apply Hall, succeeded_In, Hs. }
  destruct (sum_field_consistent _ Hcons) as (Hu & Hd & Heq).
  destruct (stats_sum_fields (succeeded fetched)) as (Et & Eu & Ed).
  unfold stats_consistent. rewrite Et, Eu, Ed.
  rewrite !wrap_int_id by (unfold is_int, MinInt, MaxInt in *; lia).
  lia.
Qed.

Lemma GetStatsForUpstreams_consistent c upstreams stat :
  sum_field Total (succeeded (map (GetStatsFor c) upstreams)) <= MaxInt ->
  GetStatsForUpstreams_returns c upstreams stat -> stats_consistent stat.
Proof.
  intros Hmax. apply merge_consistent; [|exact Hmax].
  intros s Hs.
  assert (Hpos : Forall (fun s => 0 <= Total s)
                   (succeeded (map (GetStatsFor c) upstreams))).
  { apply List.Forall_forall. intros s' Hs'.
    apply succeeded_In, in_map_iff in Hs' as (u & Hu & _).
    apply GetStatsFor_total in Hu. lia. }
  pose proof (sum_field_member _ s Hpos (proj2 (succeeded_In _ s) Hs)) as Hle.
  apply in_map_iff in Hs as (u & Hu & _).
  destruct (GetStatsFor_calculated _ _ _ Hu) as [res Hres].
  apply (calculateStatsFor_consistent u res); [|exact Hres].
  apply calculateStatsFor_total in Hres as [<- _]. lia.
Qed.

(** C9: the Stats of a single upstream has [Up + Down = Total] with the
    three fields non-negative, and so has every value the merge returns,
    also when some fetches fail: a goroutine adds all three fields or
    none.  The lengths are those of Go slices, and the peers counted
    together fit an [int].  In [int] arithmetic the equation holds of the
    merge with no such bound. *)
Theorem stats_always_consistent :
  (forall upstream res s,
      len (Peers res) <= MaxInt ->
      calculateStatsFor upstream res = Ok s -> stats_consistent s) /\
  (forall fetched stat,
      (forall s, In (Ok s) fetched -> stats_consistent s) ->
      sum_field Total (succeeded fetched) <= MaxInt ->
      merge_returns fetched stat -> stats_consistent stat) /\
  (forall fetched stat,
      (forall s, In (Ok s) fetched -> Up s + Down s = Total s) ->
      merge_returns fetched stat ->
      int_add (Up stat) (Down stat) = Total stat) /\
  (forall c upstreams stat,
      sum_field Total (succeeded (map (GetStatsFor c) upstreams)) <= MaxInt ->
      GetStatsForUpstreams_returns c upstreams stat -> stats_consistent stat) /\
  (forall c hostname stat,
      (forall m ux,
          GetUpstreamsFor c hostname = Ret (Ok m) ->
          m !! hostname = Some ux ->
          sum_field Total (succeeded (map (GetStatsFor c) ux)) <= MaxInt) ->
      GetStatsForHost c hostname = Ret (Ok stat) -> stats_consistent stat).
Proof.
  split; [|split; [|split; [|split]]].
  - apply calculateStatsFor_consistent.
  - apply merge_consistent.
  - intros fetched stat Hall Hret. apply merge_returns_iff in Hret.
    rewrite merge_stats_sum in Hret. subst stat.
    assert (Heq : Forall (fun s => Up s + Down s = Total s) (succeeded fetched)).
    { apply List.Forall_forall. intros s Hs. apply Hall, succeeded_In, Hs. }
    apply sum_field_equation in Heq.
    destruct (stats_sum_fields (succeeded fetched)) as (Et & Eu & Ed).
    rewrite Et, Eu, Ed. unfold int_add.
    rewrite wrap_int_add_r, Z.add_comm, wrap_int_add_r.
    f_equal. lia.
  - apply GetStatsForUpstreams_consistent.
  - intros c hostname stat Hmax. unfold GetStatsForHost.
    destruct (GetUpstreamsFor c hostname) as [[m|err]|msg] eqn:Hres; simpl;
      try discriminate.
    destruct (m !! hostname) as [ux|] eqn:Hux; [|discriminate].
    intros [= <-].
    apply (GetStatsForUpstreams_consistent c ux).
    + apply (Hmax m ux); [reflexivity | exact Hux].
    + apply GetStatsForUpstreams_deterministic. reflexivity.
Qed.

Lemma stats_always_consistent_witness :
  stats_consistent
    (GetStatsForUpstreams sample_client
       ["hg-backend"; "trac-backend"; "lxr-backend"]).
Proof.
  destruct stats_always_consistent as (_ & _ & _ & Hmerge & _).
  apply (Hmerge sample_client ["hg-backend"; "trac-backend"; "lxr-backend"]).
  - vm_compute. discriminate.
  - apply GetStatsForUpstreams_deterministic. reflexivity.
Defined.

(** ** Statistics for a host *)

Lemma succeeded_all_failed (fetch : string -> result Stats) upstreams :
  (forall u, In u upstreams -> is_err (fetch u) = true) ->
  succeeded (map fetch upstreams) = [].
Proof.
  induction upstreams as [|u upstreams IH]; simpl; intros Hall; [reflexivity|].
  pose proof (Hall u (or_introl eq_refl)) as Hu.
  destruct (fetch u); [discriminate|]. apply IH. auto.
Qed.

(** C6: [GetStatsForHost] returns an error in exactly two cases: the
    resolution returned an error, which is passed on wrapped with the
    hostname, or the resolved mapping has no key for the hostname.  When
    the key is there it returns what [GetStatsForUpstreams] returns for
    the names under it, under any schedule, and never an error: if every
    one of those fetches fails the result is the zero Stats. *)
Theorem GetStatsForHost_fails_iff c hostname :
  (forall err,
      GetUpstreamsFor c hostname = Ret (Err err) ->
      GetStatsForHost c hostname =
        Ret (Err (Errorf_w ("getting stats for host " +:+ hostname +:+ ": ")
                    err))) /\
  (forall m,
      GetUpstreamsFor c hostname = Ret (Ok m) -> m !! hostname = None ->
      GetStatsForHost c hostname =
        Ret (Err (errorString ("no stat data for host " +:+ hostname)))) /\
  (forall m ux,
      GetUpstreamsFor c hostname = Ret (Ok m) -> m !! hostname = Some ux ->
      GetStatsForHost c hostname = Ret (Ok (GetStatsForUpstreams c ux)) /\
      (forall stat,
          GetStatsForUpstreams_returns c ux stat ->
          stat = GetStatsForUpstreams c ux) /\
      ((forall u, In u ux -> is_err (GetStatsFor c u) = true) ->
       GetStatsForHost c hostname = Ret (Ok Stats_zero))) /\
  ((exists e, GetStatsForHost c hostname = Ret (Err e)) <->
   (exists err, GetUpstreamsFor c hostname = Ret (Err err)) \/
   (exists m, GetUpstreamsFor c hostname = Ret (Ok m) /\ m !! hostname = None)).
Proof.
  unfold GetStatsForHost.
  destruct (GetUpstreamsFor c hostname) as [[m|err]|msg] eqn:Hres; simpl.
  - destruct (m !! hostname) as [ux|] eqn:Hux.
    + split; [discriminate|]. split; [intros m' [= <-]; congruence|].
      split.
      * intros m' ux' [= <-] Hux'. rewrite Hux in Hux'. injection Hux' as <-.
        split; [reflexivity|]. split.
        -- intros stat. apply GetStatsForUpstreams_deterministic.
        -- intros Hall. unfold GetStatsForUpstreams.
           rewrite merge_stats_sum, (succeeded_all_failed _ _ Hall).
           reflexivity.
      * split.
        -- intros [e He]. discriminate.
        -- intros [[err Herr] | (m' & [= <-] & Hnone)]; [discriminate|].
           congruence.
    + split; [discriminate|]. split; [reflexivity|].
      split; [intros m' ux' [= <-]; congruence|].
      split; [|eauto]. intros _. right. exists m. auto.
  - split; [intros err' [= <-]; reflexivity|].
    split; [discriminate|]. split; [discriminate|].
    split; [|eauto]. intros _. left. eauto.
  - split; [discriminate|]. split; [discriminate|]. split; [discriminate|].
    split.
    + intros [e He]. discriminate.
    + intros [[err Herr] | (m & Hm & _)]; discriminate.
Qed.

Lemma GetStatsForHost_fails_iff_witness :
  GetStatsForHost sample_client "bar.example.org"
  = Ret (Ok {| Total := 4; Up := 3; Down := 1 |}) /\
  GetStatsForHost sample_client "foo.example.org"
  = Ret (Err (errorString "no stat data for host foo.example.org")).
Proof.
  split.
  - destruct (GetStatsForHost_fails_iff sample_client "bar.example.org")
      as (_ & _ & Hsome & _).
    destruct (Hsome {[ "bar.example.org" := ["hg-backend"; "lxr-backend"] ]}
                ["hg-backend"; "lxr-backend"]) as (Hval & _).
    + vm_compute. reflexivity.
    + vm_compute. reflexivity.
    + rewrite Hval. vm_compute. reflexivity.
  - destruct (GetStatsForHost_fails_iff sample_client "foo.example.org")
      as (_ & Hnone & _).
    apply (Hnone ∅).
    + vm_compute. reflexivity.
    + vm_compute. reflexivity.
Defined.

(** ** Construction *)

Lemma WithVersion_supported v :
  (v =? 4) || (v =? 5) || (v =? 6) || (v =? 7) || (v =? 8) = true <->
  In v supported_versions.
Proof.
  unfold supported_versions. simpl.
  destruct (Z.eqb_spec v 4), (Z.eqb_spec v 5), (Z.eqb_spec v 6),
    (Z.eqb_spec v 7), (Z.eqb_spec v 8); simpl; split; intros H;
    try reflexivity; try discriminate; try lia; intuition lia.
Qed.

(** The options run in order, each on the client the previous ones left,
    and the first error ends the run. *)
Lemma apply_options_app before after c :
  apply_options (before ++ after) c =
    match apply_options before c with
    | Ok c' => apply_options after c'
    | Err err => Err err
    end.
Proof.
  revert c. induction before as [|opt before IH]; intros c; simpl.
  - reflexivity.
  - destruct (opt c) as [c' [err|]]; [reflexivity | apply IH].
Qed.

(** C8, as the code has it: [NewClient] rejects the empty base URL and
    makes no other check of it; [WithVersion] fails for every value that
    is not one of 4, 5, 6, 7, 8 (so for 9 and for 99) and succeeds,
    setting the version, for each of those; the options are applied in
    order and the first one that fails ends the construction with its
    error; with a non-empty URL and no option the client is built with
    version 8, the largest supported one. *)
Theorem NewClient_validates (defaultHTTP : http_Client) :
  (forall opts,
      NewClient defaultHTTP "" opts = Err (errorString "invalid base URL")) /\
  (forall v c,
      ~ In v supported_versions ->
      WithVersion v c =
        (c, Some (errorString ("unsupported NGINX version: " +:+ pretty v)))) /\
  ~ In 9 supported_versions /\ ~ In 99 supported_versions /\
  (forall v c,
      In v supported_versions ->
      WithVersion v c =
        ({| version := v; baseURL := baseURL c; httpClient := httpClient c |},
         None)) /\
  (forall before opt after c c' err,
      apply_options before c = Ok c' -> snd (opt c') = Some err ->
      apply_options (before ++ opt :: after) c = Err err) /\
  (forall url before opt after c' err,
      url <> "" ->
      NewClient defaultHTTP url before = Ok c' -> snd (opt c') = Some err ->
      NewClient defaultHTTP url (before ++ opt :: after) = Err err) /\
  (forall url,
      url <> "" ->
      NewClient defaultHTTP url [] =
        Ok {| version := 8; baseURL := url; httpClient := defaultHTTP |}) /\
  In 8 supported_versions /\ (forall v, In v supported_versions -> v <= 8).
Proof.
  assert (Hseq : forall before opt after c c' err,
             apply_options before c = Ok c' -> snd (opt c') = Some err ->
             apply_options (before ++ opt :: after) c = Err err).
  { intros before opt after c c' err Hbefore Hopt.
    rewrite apply_options_app, Hbefore. simpl.
    destruct (opt c') as [c'' [err'|]]; simpl in Hopt; congruence. }
  repeat split.
  - intros v c Hv. unfold WithVersion.
    destruct ((v =? 4) || (v =? 5) || (v =? 6) || (v =? 7) || (v =? 8))
      eqn:Hsw; [|reflexivity].
    apply WithVersion_supported in Hsw. contradiction.
  - unfold supported_versions. simpl. lia.
  - unfold supported_versions. simpl. lia.
  - intros v c Hv. unfold WithVersion.
    apply WithVersion_supported in Hv. rewrite Hv. reflexivity.
  - exact Hseq.
  - intros url before opt after c' err Hurl. unfold NewClient.
    destruct (String.eqb_spec url "") as [|_]; [contradiction|].
    apply Hseq.
  - intros url Hurl. unfold NewClient.
    destruct (String.eqb_spec url "") as [|_]; [contradiction|]. reflexivity.
  - unfold supported_versions. simpl. lia.
  - unfold supported_versions. simpl. intros v Hv. lia.
Qed.

Lemma NewClient_validates_witness :
  is_err (NewClient {| Do := sample_server |} "http://localhost:9001"
            [WithVersion 7; WithVersion 99; WithVersion 5]) = true /\
  NewClient {| Do := sample_server |} "http://localhost:9001" [] =
    Ok {| version := 8; baseURL := "http://localhost:9001";
          httpClient := {| Do := sample_server |} |}.
Proof.
  destruct (NewClient_validates {| Do := sample_server |})
    as (_ & _ & _ & _ & _ & _ & Hfirst & Hdefault & _).
  split.
  - assert (Hurl : "http://localhost:9001" <> "") by discriminate.
    exact (f_equal is_err
             (Hfirst "http://localhost:9001" [WithVersion 7] (WithVersion 99)
                [WithVersion 5]
                {| version := 7; baseURL := "http://localhost:9001";
                   httpClient := {| Do := sample_server |} |}
                (errorString "unsupported NGINX version: 99")
                Hurl eq_refl eq_refl)).
  - apply Hdefault. discriminate.
Defined.

(** C8 as stated fails: a malformed base URL that is not empty is
    accepted, and a client is built. *)
Lemma NewClient_accepts_malformed_URL :
  lacks_scheme "not a url" = true /\
  NewClient {| Do := sample_server |} "not a url" [] =
    Ok {| version := 8; baseURL := "not a url";
          httpClient := {| Do := sample_server |} |}.
Proof. split; reflexivity. Qed.

(** * Further properties *)

(** ** Transport *)

(** X1: [get] succeeds exactly when every stage of the round trip does: the
    request is built and sent, the status is 200, the body is read and
    decodes; the value is the decoded one.  So a status other than 200 is
    an error whatever the body holds. *)
Theorem get_ok_iff {T} (c : Client) (url : string)
    (data : exchange -> result T) (v : T) :
  get c url data = Ok v <->
  stages_ok (Do (httpClient c) url) /\ data (Do (httpClient c) url) = Ok v.
Proof.
  unfold get, stages_ok, StatusOK.
  destruct (request_error (Do (httpClient c) url)) as [e1|];
    [split; [discriminate | intros [(H & _) _]; discriminate]|].
  destruct (do_error (Do (httpClient c) url)) as [e2|];
    [split; [discriminate | intros [(_ & H & _) _]; discriminate]|].
  destruct (Z.eqb_spec (StatusCode (Do (httpClient c) url)) 200) as [Hs|Hs];
    simpl; [|split; [discriminate | intros [(_ & _ & H & _) _]; contradiction]].
  destruct (read_error (Do (httpClient c) url)) as [e4|];
    [split; [discriminate | intros [(_ & _ & _ & H) _]; discriminate]|].
  destruct (data (Do (httpClient c) url)) as [v'|e5].
  - split; [intros [= <-]; auto | intros [_ [= <-]]; reflexivity].
  - split; [discriminate | intros [_ H]; discriminate].
Qed.

(** X2: The error of a failed [get] names the first stage that failed, in
    the order build, send, status, read, decode.  The status error is a
    plain message carrying the code and wraps nothing; each of the other
    four wraps the stage's own error, which [errors.Unwrap] gives back,
    and its message is the stage's prefix followed by that error's
    message. *)
Theorem get_error_stage {T} (c : Client) (url : string)
    (data : exchange -> result T) (err : error) :
  get c url data = Err err ->
  let x := Do (httpClient c) url in
  (exists cause, request_error x = Some cause /\
     Unwrap err = Some cause /\
     Error err = "creating request: " +:+ Error cause) \/
  (exists cause, request_error x = None /\ do_error x = Some cause /\
     Unwrap err = Some cause /\
     Error err = "sending request: " +:+ Error cause) \/
  (request_error x = None /\ do_error x = None /\
     StatusCode x <> 200 /\ Unwrap err = None /\
     Error err = "got response code: " +:+ pretty (StatusCode x)) \/
  (exists cause, request_error x = None /\ do_error x = None /\
     StatusCode x = 200 /\ read_error x = Some cause /\
     Unwrap err = Some cause /\
     Error err = "reading response body: " +:+ Error cause) \/
  (exists cause, stages_ok x /\ data x = Err cause /\
     Unwrap err = Some cause /\
     Error err = "unmarshaling response body: " +:+ Error cause).
Proof.
  unfold get, stages_ok, StatusOK. simpl.
  destruct (request_error (Do (httpClient c) url)) as [e1|].
  { intros [= <-]. left. exists e1. auto. }
  destruct (do_error (Do (httpClient c) url)) as [e2|].
  { intros [= <-]. right. left. exists e2. auto. }
  destruct (Z.eqb_spec (StatusCode (Do (httpClient c) url)) 200) as [Hs|Hs];
    simpl.
  2: { intros [= <-]. right. right. left. auto. }
  destruct (read_error (Do (httpClient c) url)) as [e4|].
  { intros [= <-]. right. right. right. left. exists e4. auto 7. }
  destruct (data (Do (httpClient c) url)) as [v'|e5]; [discriminate|].
  intros [= <-]. right. right. right. right. exists e5. auto 7.
Qed.

Lemma get_error_stage_witness :
  exists err,
    get (client_of (fun _ => exchange_ok (Ok (upstream_with []))
                               (Err (errorString "unexpected end of JSON input"))))
      "http://localhost:9001/api/8/http/upstreams?fields=zone" unmarshal_any
    = Err err /\
    Error err = "unmarshaling response body: unexpected end of JSON input".
Proof.
  eexists. split; [reflexivity|].
  destruct (get_error_stage
    (client_of (fun _ => exchange_ok (Ok (upstream_with []))
                           (Err (errorString "unexpected end of JSON input"))))
    "http://localhost:9001/api/8/http/upstreams?fields=zone" unmarshal_any _
    eq_refl)
    as [(e & H & _) | [(e & _ & H & _) | [(_ & _ & H & _) |
        [(e & _ & _ & _ & H & _) | (e & _ & Hd & _ & Hmsg)]]]];
    try discriminate.
  - exfalso. apply H. reflexivity.
  - injection Hd as <-. exact Hmsg.
Defined.

(** ** Errors of the queries *)

Lemma string_app_assoc (a b c : string) : (a +:+ b) +:+ c = a +:+ (b +:+ c).
Proof.
  induction a as [|x a IH]; [reflexivity|].
  change (String x ((a +:+ b) +:+ c) = String x (a +:+ (b +:+ c))).
  rewrite IH. reflexivity.
Qed.

(** X3: [GetStatsFor] returns an error in two cases only: the transport
    failed, and the error is the transport's own, passed on as it is with
    no upstream name added; or the response decoded to no peers. *)
Theorem GetStatsFor_error_iff c upstream err :
  GetStatsFor c upstream = Err err <->
  get c (upstream_url c upstream) unmarshal_upstream = Err err \/
  (exists res,
      get c (upstream_url c upstream) unmarshal_upstream = Ok res /\
      Peers res = [] /\ err = errorString "no servers in upstream").
Proof.
  unfold GetStatsFor.
  destruct (get c (upstream_url c upstream) unmarshal_upstream) as [res|e].
  - split.
    + intros Hcalc. right. exists res. split; [reflexivity|].
      destruct (Peers res) as [|p peers] eqn:Hpeers.
      * rewrite calculateStatsFor_empty in Hcalc by exact Hpeers.
        split; congruence.
      * exfalso. unfold calculateStatsFor in Hcalc. rewrite Hpeers in Hcalc.
        destruct (Z.ltb_spec (len (p :: peers)) 1) as [Hlt|_];
          [unfold len in Hlt; simpl in Hlt; lia | discriminate].
    + intros [Hget | (res' & [= <-] & Hnil & ->)]; [discriminate|].
      apply calculateStatsFor_empty, Hnil.
  - split.
    + intros [= <-]. left. reflexivity.
    + intros [[= <-] | (res' & Hget & _)]; [reflexivity | discriminate].
Qed.

(** X4: When the zone query's transport fails, [GetStatsForHost] returns an
    error that wraps the resolver's error, which wraps the transport's:
    two [errors.Unwrap] reach the transport's error, and the message
    reads "getting stats for host H: retrieving zones: " and then the
    transport's message. *)
Theorem GetStatsForHost_error_chain c hostname cause :
  get c (zones_url c) unmarshal_any = Err cause ->
  exists err,
    GetStatsForHost c hostname = Ret (Err err) /\
    Error err =
      "getting stats for host " +:+ hostname +:+ ": retrieving zones: "
      +:+ Error cause /\
    (Unwrap err ≫= Unwrap) = Some cause.
Proof.
  intros Hget. unfold GetStatsForHost, GetUpstreamsFor. rewrite Hget. simpl.
  eexists. split; [reflexivity|]. split; [|reflexivity].
  simpl. rewrite !string_app_assoc. reflexivity.
Qed.

Lemma GetStatsForHost_error_chain_witness :
  exists err,
    GetStatsForHost (client_of (fun _ => exchange_refused)) "bar.example.org"
    = Ret (Err err) /\
    Error err =
      "getting stats for host bar.example.org: retrieving zones: sending request: connection refused".
Proof.
  destruct (GetStatsForHost_error_chain
              (client_of (fun _ => exchange_refused)) "bar.example.org"
              (Errorf_w "sending request: " (errorString "connection refused"))
              eq_refl) as (err & Herr & Hmsg & _).
  exists err. split; [exact Herr|]. rewrite Hmsg. reflexivity.
Defined.

(** ** Splitting and the derived hostname *)

Lemma Split_head_no_sep s sep head segs :
  Split s sep = head :: segs -> contains_byte head sep = false.
Proof.
  revert head segs. induction s as [|c rest IH]; simpl; intros head segs.
  - intros [= <- _]. reflexivity.
  - destruct (Ascii.eqb c sep) eqn:Hc.
    + intros [= <- _]. reflexivity.
    + destruct (Split rest sep) as [|seg segs'] eqn:Hrest.
      * intros [= <- _]. simpl. rewrite Hc. reflexivity.
      * intros [= <- _]. simpl. rewrite Hc. simpl. apply (IH seg segs').
        reflexivity.
Qed.

Lemma Split_head_prefix s sep head segs :
  Split s sep = head :: segs -> String.prefix head s = true.
Proof.
  revert head segs. induction s as [|c rest IH]; simpl; intros head segs.
  - intros [= <- _]. reflexivity.
  - destruct (Ascii.eqb c sep) eqn:Hc.
    + intros [= <- _]. reflexivity.
    + destruct (Split rest sep) as [|seg segs'] eqn:Hrest.
      * intros [= <- _]. simpl.
        destruct (Ascii.ascii_dec c c); [|contradiction].
        destruct rest; reflexivity.
      * intros [= <- _]. simpl.
        destruct (Ascii.ascii_dec c c); [|contradiction].
        apply (IH seg segs'). reflexivity.
Qed.

Lemma Split_segments_no_sep s sep :
  Forall (fun seg => contains_byte seg sep = false) (Split s sep).
Proof.
  induction s as [|c rest IH]; simpl.
  - repeat constructor.
  - destruct (Ascii.eqb c sep) eqn:Hc.
    + constructor; [reflexivity | exact IH].
    + destruct (Split rest sep) as [|seg segs].
      * constructor; [simpl; rewrite Hc; reflexivity | constructor].
      * inversion IH as [|? ? Hseg Hsegs]; subst.
        constructor; [simpl; rewrite Hc; exact Hseg | exact Hsegs].
Qed.

Lemma Split_length s sep : length (Split s sep) = S (count_byte s sep).
Proof.
  induction s as [|c rest IH]; simpl; [reflexivity|].
  destruct (Ascii.eqb c sep); simpl.
  - rewrite IH. reflexivity.
  - pose proof (Split_not_nil rest sep).
    destruct (Split rest sep) as [|seg segs]; [congruence|].
    simpl in *. exact IH.
Qed.

Lemma Join_Split s sep : Join (Split s sep) (String sep EmptyString) = s.
Proof.
  induction s as [|c rest IH]; simpl; [reflexivity|].
  pose proof (Split_not_nil rest sep) as Hne.
  destruct (Ascii.eqb_spec c sep) as [->|Hc].
  - destruct (Split rest sep) as [|seg segs]; [congruence|].
    rewrite <- IH. reflexivity.
  - destruct (Split rest sep) as [|seg segs]; [congruence|].
    destruct segs as [|seg' segs].
    + simpl in *. rewrite IH. reflexivity.
    + rewrite <- IH. reflexivity.
Qed.

(** X5: Splitting loses nothing: joining the segments with the separator
    gives the string back; there is one segment more than there are
    separators in the string; and no segment holds the separator. *)
Theorem Split_Join_roundtrip s sep :
  Join (Split s sep) (String sep EmptyString) = s /\
  length (Split s sep) = S (count_byte s sep) /\
  Forall (fun seg => contains_byte seg sep = false) (Split s sep).
Proof.
  split; [apply Join_Split|].
  split; [apply Split_length | apply Split_segments_no_sep].
Qed.

Lemma derive_hostname_no_hyphen zone host :
  derive_hostname zone = Ret host -> contains_byte host hyphen = false.
Proof.
  unfold derive_hostname, slice_index.
  destruct (Split zone hyphen) as [|head segs] eqn:Hsplit; [discriminate|].
  simpl. intros [= <-]. apply (Split_head_no_sep _ _ _ _ Hsplit).
Qed.

(** X6: The derived hostname has no '-', is a prefix of the zone, and is its
    own derived hostname. *)
Theorem derive_hostname_shape zone host :
  derive_hostname zone = Ret host ->
  contains_byte host hyphen = false /\
  String.prefix host zone = true /\
  derive_hostname host = Ret host.
Proof.
  unfold derive_hostname, slice_index.
  destruct (Split zone hyphen) as [|head segs] eqn:Hsplit; [discriminate|].
  simpl. intros [= <-].
  pose proof (Split_head_no_sep _ _ _ _ Hsplit) as Hno.
  split; [exact Hno|]. split; [apply (Split_head_prefix _ _ _ _ Hsplit)|].
  rewrite (Split_no_sep _ _ Hno). reflexivity.
Qed.

Lemma derive_hostname_shape_witness :
  contains_byte "bar.example.org" hyphen = false /\
  String.prefix "bar.example.org" "bar.example.org-hg-backend" = true /\
  derive_hostname "bar.example.org" = Ret "bar.example.org".
Proof.
  apply (derive_hostname_shape "bar.example.org-hg-backend"). reflexivity.
Defined.

(** ** More on the resolver *)

Lemma matching_upstreams_hyphen hostname entries :
  contains_byte hostname hyphen = true ->
  matching_upstreams hostname entries = [].
Proof.
  intros Hhyphen. unfold matching_upstreams.
  induction entries as [|[u v] entries IH]; simpl; [reflexivity|].
  destruct (entry_matches hostname (u, v)) eqn:Hm; [|exact IH].
  exfalso. apply entry_matches_host in Hm.
  unfold entry_hostname in Hm.
  destruct (as_map v) as [value|]; [|discriminate].
  destruct (as_string (map_index value "zone")) as [zone|]; [|discriminate].
  destruct (derive_hostname zone) as [host|msg] eqn:Hd; [|discriminate].
  injection Hm as ->.
  apply derive_hostname_no_hyphen in Hd. congruence.
Qed.

(** X7: A hostname that has a '-' is never resolved: whatever the zone map
    holds, the resolver returns the empty mapping, and [GetStatsForHost]
    fails with the no-data error. *)
Theorem hyphenated_hostname_never_resolves c hostname :
  contains_byte hostname hyphen = true ->
  (forall entries,
      hostnameUpstreamsFromResponse hostname (VMap entries) = Ret ∅) /\
  (forall entries,
      get c (zones_url c) unmarshal_any = Ok (VMap entries) ->
      GetStatsForHost c hostname =
        Ret (Err (errorString ("no stat data for host " +:+ hostname)))).
Proof.
  intros Hhyphen. split.
  - intros entries. rewrite hostnameUpstreamsFromResponse_map.
    rewrite (matching_upstreams_hyphen _ _ Hhyphen). reflexivity.
  - intros entries Hget. unfold GetStatsForHost.
    rewrite (GetUpstreamsFor_map _ _ _ Hget).
    rewrite (matching_upstreams_hyphen _ _ Hhyphen). simpl.
    rewrite lookup_empty. reflexivity.
Qed.

Lemma hyphenated_hostname_never_resolves_witness :
  GetStatsForHost
    (client_of (fun _ =>
       exchange_ok (Err (errorString "unused"))
         (Ok (VMap [("shop-backend", zone_entry "my-shop.example.org-shop-backend")]))))
    "my-shop.example.org"
  = Ret (Err (errorString "no stat data for host my-shop.example.org")).
Proof.
  destruct (hyphenated_hostname_never_resolves
    (client_of (fun _ =>
       exchange_ok (Err (errorString "unused"))
         (Ok (VMap [("shop-backend", zone_entry "my-shop.example.org-shop-backend")]))))
    "my-shop.example.org" eq_refl) as [_ Hhost].
  apply (Hhost [("shop-backend", zone_entry "my-shop.example.org-shop-backend")]).
  reflexivity.
Defined.

Lemma matching_upstreams_Permutation hostname entries entries' :
  Permutation entries entries' ->
  Permutation (matching_upstreams hostname entries)
    (matching_upstreams hostname entries').
Proof.
  unfold matching_upstreams.
  induction 1 as [|e l l' _ IH|e e' l|l l' l'' _ IH1 _ IH2]; simpl.
  - constructor.
  - destruct (entry_matches hostname e); simpl; [constructor|]; exact IH.
  - destruct (entry_matches hostname e), (entry_matches hostname e'); simpl;
      try reflexivity.
    apply perm_swap.
  - etransitivity; eassumption.
Qed.

(** X8: The order in which the runtime visits the zone map does not matter
    beyond the order of the names: two visits of the same entries give
    mappings with the same keys, and under each key lists that are
    permutations of each other. *)
Theorem hostnameUpstreamsFromResponse_order hostname entries entries'
    (m m' : gmap string (list string)) :
  Permutation entries entries' ->
  hostnameUpstreamsFromResponse hostname (VMap entries) = Ret m ->
  hostnameUpstreamsFromResponse hostname (VMap entries') = Ret m' ->
  forall host, option_Forall2 Permutation (m !! host) (m' !! host).
Proof.
  intros Hperm. rewrite !hostnameUpstreamsFromResponse_map.
  pose proof (matching_upstreams_Permutation hostname _ _ Hperm) as Hux.
  destruct (matching_upstreams hostname entries) as [|u ux];
    destruct (matching_upstreams hostname entries') as [|u' ux'].
  - intros [= <-] [= <-] host. rewrite lookup_empty. constructor.
  - apply Permutation_nil in Hux. discriminate.
  - symmetry in Hux. apply Permutation_nil in Hux. discriminate.
  - intros [= <-] [= <-] host.
    destruct (decide (hostname = host)) as [->|Hne].
    + rewrite !lookup_singleton_eq. constructor. exact Hux.
    + rewrite !lookup_singleton_ne by exact Hne. constructor.
Qed.

Lemma hostnameUpstreamsFromResponse_order_witness :
  option_Forall2 Permutation
    (Some ["hg-backend"; "lxr-backend"]) (Some ["lxr-backend"; "hg-backend"]).
Proof.
  pose proof (hostnameUpstreamsFromResponse_order "bar.example.org"
    [("hg-backend", zone_entry "bar.example.org-hg-backend");
     ("demo-backend", zone_entry "foo.example.com-demo-backend");
     ("lxr-backend", zone_entry "bar.example.org-lxr-backend")]
    [("lxr-backend", zone_entry "bar.example.org-lxr-backend");
     ("hg-backend", zone_entry "bar.example.org-hg-backend");
     ("demo-backend", zone_entry "foo.example.com-demo-backend")]
    {[ "bar.example.org" := ["hg-backend"; "lxr-backend"] ]}
    {[ "bar.example.org" := ["lxr-backend"; "hg-backend"] ]}) as H.
  apply (H (Permutation_sym
              (Permutation_cons_append
                 [("hg-backend", zone_entry "bar.example.org-hg-backend");
                  ("demo-backend", zone_entry "foo.example.com-demo-backend")]
                 ("lxr-backend", zone_entry "bar.example.org-lxr-backend")))
           eq_refl eq_refl "bar.example.org").
Defined.

(** X9: A key of the resolved mapping is the requested hostname and never
    holds an empty list. *)
Theorem GetUpstreamsFor_lists_nonempty c hostname
    (m : gmap string (list string)) host ux :
  GetUpstreamsFor c hostname = Ret (Ok m) ->
  m !! host = Some ux ->
  host = hostname /\ ux <> [].
Proof.
  unfold GetUpstreamsFor.
  destruct (get c (zones_url c) unmarshal_any) as [response|err];
    [|discriminate].
  destruct response as [| | | | |entries];
    try (unfold hostnameUpstreamsFromResponse; simpl; discriminate).
  rewrite hostnameUpstreamsFromResponse_map. simpl.
  destruct (matching_upstreams hostname entries) as [|u0 ux0].
  - intros [= <-]. rewrite lookup_empty. discriminate.
  - intros [= <-] Hux. apply lookup_singleton_Some in Hux as [<- <-].
    split; [reflexivity | discriminate].
Qed.

Lemma GetUpstreamsFor_lists_nonempty_witness :
  "bar.example.org" = "bar.example.org" /\
  ["hg-backend"; "lxr-backend"] <> [].
Proof.
  apply (GetUpstreamsFor_lists_nonempty sample_client "bar.example.org"
           {[ "bar.example.org" := ["hg-backend"; "lxr-backend"] ]}
           "bar.example.org" ["hg-backend"; "lxr-backend"]).
  - vm_compute. reflexivity.
  - vm_compute. reflexivity.
Defined.

(** X10: With the zone query decoded to a map, [GetStatsForHost] succeeds
    exactly when some entry derives the hostname, and its value is then
    the aggregate over the names of those entries. *)
Theorem GetStatsForHost_ok_iff c hostname entries stat :
  get c (zones_url c) unmarshal_any = Ok (VMap entries) ->
  (GetStatsForHost c hostname = Ret (Ok stat) <->
   matching_upstreams hostname entries <> [] /\
   stat = GetStatsForUpstreams c (matching_upstreams hostname entries)).
Proof.
  intros Hget. unfold GetStatsForHost.
  rewrite (GetUpstreamsFor_map _ _ _ Hget). simpl.
  destruct (matching_upstreams hostname entries) as [|u ux].
  - rewrite lookup_empty. split; [discriminate | intros [H _]; congruence].
  - rewrite lookup_singleton_eq. split.
    + intros [= <-]. split; [discriminate | reflexivity].
    + intros [_ ->]. reflexivity.
Qed.

Lemma GetStatsForHost_ok_iff_witness :
  GetStatsForHost sample_client "bar.example.org" =
    Ret (Ok (GetStatsForUpstreams sample_client ["hg-backend"; "lxr-backend"])).
Proof.
  apply (GetStatsForHost_ok_iff sample_client "bar.example.org"
           [("demo-backend", zone_entry "foo.example.com-demo-backend");
            ("trac-backend", zone_entry "bar.example.com-trac-backend");
            ("hg-backend", zone_entry "bar.example.org-hg-backend");
            ("lxr-backend", zone_entry "bar.example.org-lxr-backend")]).
  - reflexivity.
  - split; [discriminate | reflexivity].
Defined.

(** ** The query URLs *)

Lemma zones_url_not_upstream c upstream :
  upstream_url c upstream <> zones_url c.
Proof.
  unfold upstream_url, zones_url. intros Heq.
  apply (inj (String.app (baseURL c))) in Heq.
  apply (inj (String.app "/api/")) in Heq.
  apply (inj (String.app (pretty (version c)))) in Heq.
  discriminate Heq.
Qed.

(** X11: Different upstream names are fetched from different URLs, and no
    upstream name, not even the empty one, leads to the URL of the zone
    query. *)
Theorem query_urls_distinct c :
  (forall upstream upstream',
      upstream_url c upstream = upstream_url c upstream' ->
      upstream = upstream') /\
  (forall upstream, upstream_url c upstream <> zones_url c).
Proof.
  split; [|apply zones_url_not_upstream].
  unfold upstream_url. intros upstream upstream' Heq.
  apply (inj (String.app (baseURL c))) in Heq.
  apply (inj (String.app "/api/")) in Heq.
  apply (inj (String.app (pretty (version c)))) in Heq.
  apply (inj (String.app "/http/upstreams/")) in Heq.
  exact Heq.
Qed.

Lemma merge_Permutation fetched fetched' :
  Permutation fetched fetched' -> merge fetched = merge fetched'.
Proof.
  intros Hperm. rewrite !merge_stats_sum.
  apply stats_sum_Permutation, succeeded_Permutation, Hperm.
Qed.

(** X12: [GetStatsForHost] does not depend on the order in which the runtime
    visits the zone map: two clients of the same server that differ only
    in that order return the same outcome for every hostname. *)
Theorem GetStatsForHost_iteration_order c c' hostname entries entries' :
  version c = version c' -> baseURL c = baseURL c' ->
  (forall url,
      url <> zones_url c -> Do (httpClient c) url = Do (httpClient c') url) ->
  get c (zones_url c) unmarshal_any = Ok (VMap entries) ->
  get c' (zones_url c') unmarshal_any = Ok (VMap entries') ->
  Permutation entries entries' ->
  GetStatsForHost c hostname = GetStatsForHost c' hostname.
Proof.
  intros Hversion Hbase Hsame Hget Hget' Hperm.
  assert (Hfetch : forall u, GetStatsFor c u = GetStatsFor c' u).
  { intros u. unfold GetStatsFor, get.
    replace (upstream_url c' u) with (upstream_url c u)
      by (unfold upstream_url; rewrite Hversion, Hbase; reflexivity).
    rewrite <- (Hsame (upstream_url c u) (zones_url_not_upstream c u)).
    reflexivity. }
  unfold GetStatsForHost.
  rewrite (GetUpstreamsFor_map _ _ _ Hget), (GetUpstreamsFor_map _ _ _ Hget').
  pose proof (matching_upstreams_Permutation hostname _ _ Hperm) as Hux.
  destruct (matching_upstreams hostname entries) as [|u ux];
    destruct (matching_upstreams hostname entries') as [|u' ux']; simpl.
  - reflexivity.
  - apply Permutation_nil in Hux. discriminate.
  - symmetry in Hux. apply Permutation_nil in Hux. discriminate.
  - rewrite !lookup_singleton_eq. do 2 f_equal.
    unfold GetStatsForUpstreams.
    rewrite (map_ext _ _ Hfetch).
    apply merge_Permutation, Permutation_map, Hux.
Qed.

Lemma GetStatsForHost_iteration_order_witness :
  GetStatsForHost sample_client "bar.example.org" =
  GetStatsForHost
    (client_of (fun url =>
       if String.eqb url "http://localhost:9001/api/8/http/upstreams?fields=zone"
       then exchange_ok (Err (errorString "not an upstream"))
              (Ok (VMap [("lxr-backend", zone_entry "bar.example.org-lxr-backend");
                         ("hg-backend", zone_entry "bar.example.org-hg-backend");
                         ("trac-backend", zone_entry "bar.example.com-trac-backend");
                         ("demo-backend", zone_entry "foo.example.com-demo-backend")]))
       else sample_server url))
    "bar.example.org".
Proof.
  apply (GetStatsForHost_iteration_order _ _ _
           [("demo-backend", zone_entry "foo.example.com-demo-backend");
            ("trac-backend", zone_entry "bar.example.com-trac-backend");
            ("hg-backend", zone_entry "bar.example.org-hg-backend");
            ("lxr-backend", zone_entry "bar.example.org-lxr-backend")]
           [("lxr-backend", zone_entry "bar.example.org-lxr-backend");
            ("hg-backend", zone_entry "bar.example.org-hg-backend");
            ("trac-backend", zone_entry "bar.example.com-trac-backend");
            ("demo-backend", zone_entry "foo.example.com-demo-backend")]).
  - reflexivity.
  - reflexivity.
  - intros url Hurl. simpl.
    destruct (String.eqb_spec url
                "http://localhost:9001/api/8/http/upstreams?fields=zone")
      as [->|_]; [|reflexivity].
    exfalso. apply Hurl. reflexivity.
  - reflexivity.
  - reflexivity.
  - apply (Permutation_rev
             [("demo-backend", zone_entry "foo.example.com-demo-backend");
              ("trac-backend", zone_entry "bar.example.com-trac-backend");
              ("hg-backend", zone_entry "bar.example.org-hg-backend");
              ("lxr-backend", zone_entry "bar.example.org-lxr-backend")]).
Defined.

(** ** More on the aggregate *)

Lemma wrap_int_is_int z : is_int (wrap_int z).
Proof.
  unfold is_int, MinInt, MaxInt, wrap_int.
  pose proof (Z.mod_pos_bound (z + 2 ^ 63) (2 ^ 64)). lia.
Qed.

Lemma sum_field_app field l l' :
  sum_field field (l ++ l') = sum_field field l + sum_field field l'.
Proof. induction l as [|s l IH]; simpl; lia. Qed.

Lemma stats_sum_app l l' :
  stats_sum (l ++ l') = stats_add (stats_sum l) (stats_sum l').
Proof.
  destruct (stats_sum_fields (l ++ l')) as (Et & Eu & Ed).
  destruct (stats_sum_fields l) as (Et1 & Eu1 & Ed1).
  destruct (stats_sum_fields l') as (Et2 & Eu2 & Ed2).
  apply Stats_eq; simpl; unfold int_add.
  - rewrite Et, Et1, Et2, sum_field_app, wrap_int_add_l, wrap_int_add_r.
    reflexivity.
  - rewrite Eu, Eu1, Eu2, sum_field_app, wrap_int_add_l, wrap_int_add_r.
    reflexivity.
  - rewrite Ed, Ed1, Ed2, sum_field_app, wrap_int_add_l, wrap_int_add_r.
    reflexivity.
Qed.

(** X13: The aggregate of a list of names is the sum of the aggregates of its
    parts, so a batch can be split and the parts added; a name that
    occurs twice is fetched and counted twice. *)
Theorem GetStatsForUpstreams_app c upstreams upstreams' :
  GetStatsForUpstreams c (upstreams ++ upstreams') =
    stats_add (GetStatsForUpstreams c upstreams)
      (GetStatsForUpstreams c upstreams') /\
  GetStatsForUpstreams c (upstreams ++ upstreams) =
    stats_add (GetStatsForUpstreams c upstreams)
      (GetStatsForUpstreams c upstreams).
Proof.
  assert (Happ : forall l l',
             GetStatsForUpstreams c (l ++ l') =
             stats_add (GetStatsForUpstreams c l) (GetStatsForUpstreams c l')).
  { intros l l'. unfold GetStatsForUpstreams.
    rewrite !merge_stats_sum, map_app, succeeded_app. apply stats_sum_app. }
  split; apply Happ.
Qed.

(** X14: As long as the peers counted fit an [int], the aggregate is the zero
    Stats exactly when every fetch failed (or there was none): a zero
    result is how a caller sees that nothing could be fetched. *)
Theorem GetStatsForUpstreams_zero_iff c upstreams :
  sum_field Total (succeeded (map (GetStatsFor c) upstreams)) <= MaxInt ->
  (GetStatsForUpstreams c upstreams = Stats_zero <->
   forall u, In u upstreams -> is_err (GetStatsFor c u) = true).
Proof.
  intros Hmax. split.
  - intros Hzero u Hu.
    destruct (GetStatsFor c u) as [s|err] eqn:Hfetch; [|reflexivity].
    exfalso.
    assert (Hpos : Forall (fun s => 0 <= Total s)
                     (succeeded (map (GetStatsFor c) upstreams))).
    { apply List.Forall_forall. intros s' Hs'.
      apply succeeded_In, in_map_iff in Hs' as (u' & Hu' & _).
      apply GetStatsFor_total in Hu'. lia. }
    assert (Hin : In s (succeeded (map (GetStatsFor c) upstreams))).
    { apply succeeded_In, in_map_iff. exists u. auto. }
    pose proof (sum_field_member _ s Hpos Hin) as Hle.
    apply GetStatsFor_total in Hfetch.
    unfold GetStatsForUpstreams in Hzero. rewrite merge_stats_sum in Hzero.
    destruct (stats_sum_fields (succeeded (map (GetStatsFor c) upstreams)))
      as (Et & _ & _).
    rewrite Hzero in Et. simpl in Et.
    rewrite wrap_int_id in Et by (unfold is_int, MinInt, MaxInt in *; lia).
    lia.
  - intros Hall. unfold GetStatsForUpstreams.
    rewrite merge_stats_sum, (succeeded_all_failed _ _ Hall). reflexivity.
Qed.

Lemma GetStatsForUpstreams_zero_iff_witness :
  GetStatsForUpstreams sample_client ["trac-backend"; "demo-backend"]
  = Stats_zero.
Proof.
  apply (GetStatsForUpstreams_zero_iff sample_client
           ["trac-backend"; "demo-backend"]).
  - vm_compute. discriminate.
  - intros u [<- | [<- | []]]; reflexivity.
Defined.

(** The counting loop in [int] arithmetic, with no bound on the list. *)
Lemma count_up_wrap peers acc :
  is_int acc ->
  count_up peers acc = wrap_int (acc + Z.of_nat (peers_up peers)).
Proof.
  revert acc. unfold peers_up.
  induction peers as [|p peers IH]; intros acc Hacc; simpl.
  - rewrite Z.add_0_r, wrap_int_id by exact Hacc. reflexivity.
  - destruct (String.eqb (State p) "up"); simpl.
    + rewrite IH by apply wrap_int_is_int.
      unfold int_add. rewrite wrap_int_add_l. f_equal. lia.
    + apply IH, Hacc.
Qed.

Lemma peers_up_states peers :
  peers_up peers =
  length (List.filter (fun st => String.eqb st "up") (map State peers)).
Proof.
  unfold peers_up. induction peers as [|p peers IH]; simpl; [reflexivity|].
  destruct (String.eqb (State p) "up"); simpl; rewrite IH; reflexivity.
Qed.

Lemma filter_length_Permutation {A} (f : A -> bool) l l' :
  Permutation l l' -> length (List.filter f l) = length (List.filter f l').
Proof.
  induction 1 as [|x l l' _ IH|x y l|l l' l'' _ IH1 _ IH2]; simpl.
  - reflexivity.
  - destruct (f x); simpl; rewrite IH; reflexivity.
  - destruct (f x), (f y); reflexivity.
  - congruence.
Qed.

(** X15: The reduction reads nothing but the states of the peers, as a bag:
    two responses whose peers have the same states in any order reduce to
    the same result, whatever the upstream names, the order of the peers
    and the other fields are. *)
Theorem calculateStatsFor_states upstream upstream' res res' :
  Permutation (map State (Peers res)) (map State (Peers res')) ->
  calculateStatsFor upstream res = calculateStatsFor upstream' res'.
Proof.
  intros Hperm.
  assert (Hlen : len (Peers res) = len (Peers res')).
  { unfold len. apply Permutation_length in Hperm.
    rewrite !length_map in Hperm. rewrite Hperm. reflexivity. }
  assert (Hup : peers_up (Peers res) = peers_up (Peers res')).
  { rewrite !peers_up_states. apply filter_length_Permutation, Hperm. }
  unfold calculateStatsFor. rewrite Hlen.
  rewrite !count_up_wrap by (unfold is_int, MinInt, MaxInt; lia).
  rewrite Hup. reflexivity.
Qed.

Lemma calculateStatsFor_states_witness :
  calculateStatsFor "hg-backend" (upstream_with ["up"; "down"; "up"]) =
  calculateStatsFor "lxr-backend"
    {| Peers := [peer_in_state "down"; peer_in_state "up"; peer_in_state "up"];
       Keepalive := 16; Zombies := 2; Zone := "bar.example.org-lxr-backend" |}.
Proof.
  apply calculateStatsFor_states. simpl. apply perm_swap.
Defined.

(** X16: Reducing one response that holds the peers of two non-empty
    responses gives what the aggregator gives for the two: pooling the
    peers and merging the Stats agree. *)
Theorem calculateStatsFor_pool upstream upstream1 upstream2 res res1 res2 :
  Peers res = (Peers res1 ++ Peers res2)%list ->
  Peers res1 <> [] -> Peers res2 <> [] ->
  len (Peers res) <= MaxInt ->
  calculateStatsFor upstream res =
    Ok (merge [calculateStatsFor upstream1 res1;
               calculateStatsFor upstream2 res2]).
Proof.
  intros Hpeers Hne1 Hne2 Hmax.
  assert (Hlen : len (Peers res) = len (Peers res1) + len (Peers res2)).
  { unfold len. rewrite Hpeers, length_app. lia. }
  assert (Hup : peers_up (Peers res) =
                (peers_up (Peers res1) + peers_up (Peers res2))%nat).
  { unfold peers_up. rewrite Hpeers, List.filter_app, length_app.
    reflexivity. }
  assert (Hne : Peers res <> []).
  { rewrite Hpeers. destruct (Peers res1); [congruence | discriminate]. }
  assert (0 <= len (Peers res1) /\ 0 <= len (Peers res2)) as [Hp1 Hp2]
    by (unfold len; lia).
  pose proof (peers_up_le (Peers res1)) as Hle1.
  pose proof (peers_up_le (Peers res2)) as Hle2.
  rewrite (calculateStatsFor_ok _ _ Hne Hmax).
  rewrite (calculateStatsFor_ok upstream1 res1 Hne1) by lia.
  rewrite (calculateStatsFor_ok upstream2 res2 Hne2) by lia.
  rewrite merge_stats_sum. simpl. f_equal.
  unfold stats_add, int_add, len in *. simpl.
  rewrite !Z.add_0_r, !wrap_int_add_r.
  rewrite !wrap_int_id by (unfold is_int, MinInt, MaxInt in *; lia).
  apply Stats_eq; simpl; lia.
Qed.

Lemma calculateStatsFor_pool_witness :
  calculateStatsFor "pool" (upstream_with ["up"; "down"; "up"; "up"]) =
    Ok (merge [calculateStatsFor "hg-backend" (upstream_with ["up"; "down"]);
               calculateStatsFor "lxr-backend" (upstream_with ["up"; "up"])]).
Proof.
  apply calculateStatsFor_pool.
  - reflexivity.
  - discriminate.
  - discriminate.
  - vm_compute. discriminate.
Defined.

(** ** More on construction *)

Lemma call_valid_version v :
  existsb (Z.eqb v) supported_versions =
  (v =? 4) || (v =? 5) || (v =? 6) || (v =? 7) || (v =? 8).
Proof.
  unfold supported_versions. simpl.
  destruct (v =? 4), (v =? 5), (v =? 6), (v =? 7), (v =? 8); reflexivity.
Qed.

Lemma last_cons {A} (x : A) l d : List.last (x :: l) d = List.last l x.
Proof.
  revert x d. induction l as [|y l IH]; intros x d; [reflexivity|].
  change (List.last (y :: l) d = List.last (y :: l) x).
  rewrite !IH. reflexivity.
Qed.

(** What a run of the package's options does to a client. *)
Lemma apply_options_calls calls c0 :
  if forallb call_valid calls
  then exists c,
      apply_options (map option_of calls) c0 = Ok c /\
      baseURL c = baseURL c0 /\
      version c = List.last (requested_versions calls) (version c0) /\
      httpClient c = List.last (requested_clients calls) (httpClient c0) /\
      (In (version c0) supported_versions -> In (version c) supported_versions)
  else is_err (apply_options (map option_of calls) c0) = true.
Proof.
  revert c0. induction calls as [|call calls IH]; intros c0.
  - exists c0. simpl. auto.
  - destruct call as [v|[h|]];
      cbn [map forallb option_of call_valid apply_options
           requested_versions requested_clients andb].
    + unfold WithVersion. rewrite <- call_valid_version.
      destruct (existsb (Z.eqb v) supported_versions) eqn:Hv;
        cbn [andb]; [|reflexivity].
      specialize (IH {| version := v; baseURL := baseURL c0;
                        httpClient := httpClient c0 |}).
      destruct (forallb call_valid calls); [|exact IH].
      apply existsb_exists in Hv as (v' & Hin & Heq).
      apply Z.eqb_eq in Heq. subst v'.
      destruct IH as (c & Hc & Hb & Hver & Hh & Hsup).
      exists c. rewrite last_cons. simpl in *.
      repeat split; try assumption.
      intros _. apply Hsup. lia.
    + unfold WithHTTPClient.
      specialize (IH {| version := version c0; baseURL := baseURL c0;
                        httpClient := h |}).
      destruct (forallb call_valid calls); [|exact IH].
      destruct IH as (c & Hc & Hb & Hver & Hh & Hsup).
      exists c. rewrite last_cons. simpl in *. auto.
    + reflexivity.
Qed.

(** X17: With the options the package exports, [NewClient] builds a client
    exactly when the URL is not empty, every requested version is listed
    and no client passed is nil. *)
Theorem NewClient_ok_iff (defaultHTTP : http_Client) url calls :
  (exists c, NewClient defaultHTTP url (map option_of calls) = Ok c) <->
  url <> "" /\ forallb call_valid calls = true.
Proof.
  unfold NewClient.
  pose proof (apply_options_calls calls
    {| version := 8; baseURL := url; httpClient := defaultHTTP |}) as Hrun.
  destruct (String.eqb_spec url "") as [->|Hurl].
  - split; [intros [c Hc]; discriminate | intros [H _]; congruence].
  - destruct (forallb call_valid calls).
    + destruct Hrun as (c & Hc & _). split; eauto.
    + split; [|intros [_ H]; discriminate].
      intros [c Hc]. rewrite Hc in Hrun. discriminate.
Qed.

(** X18: A client built with the package's options has the base URL it was
    given, which is not empty, and a listed version: the one of the last
    [WithVersion], or 8 if there is none; its HTTP client is the one of
    the last [WithHTTPClient], or the default one. *)
Theorem NewClient_last_option_wins (defaultHTTP : http_Client) url calls c :
  NewClient defaultHTTP url (map option_of calls) = Ok c ->
  baseURL c = url /\ url <> "" /\
  In (version c) supported_versions /\
  version c = List.last (requested_versions calls) 8 /\
  httpClient c = List.last (requested_clients calls) defaultHTTP.
Proof.
  unfold NewClient.
  pose proof (apply_options_calls calls
    {| version := 8; baseURL := url; httpClient := defaultHTTP |}) as Hrun.
  destruct (String.eqb_spec url "") as [->|Hurl]; [discriminate|].
  intros Hc. destruct (forallb call_valid calls).
  - destruct Hrun as (c' & Hc' & Hb & Hver & Hh & Hsup).
    rewrite Hc in Hc'. injection Hc' as <-. simpl in *.
    repeat split; try assumption.
    apply Hsup. unfold supported_versions. simpl. lia.
  - rewrite Hc in Hrun. discriminate.
Qed.

Lemma NewClient_last_option_wins_witness :
  exists c,
    NewClient {| Do := fun _ => exchange_refused |} "http://localhost:9001"
      [WithVersion 5; WithHTTPClient (Some {| Do := sample_server |});
       WithVersion 7]
    = Ok c /\
    version c = 7 /\ baseURL c = "http://localhost:9001".
Proof.
  eexists. split; [reflexivity|].
  destruct (NewClient_last_option_wins {| Do := fun _ => exchange_refused |}
              "http://localhost:9001"
              [CallWithVersion 5;
               CallWithHTTPClient (Some {| Do := sample_server |});
               CallWithVersion 7]
              _ eq_refl) as (Hb & _ & _ & Hv & _).
  split; [exact Hv | exact Hb].
Defined.

(** ** Earlier revisions *)

(** The indexed stores of the earlier reduction stay in range and leave
    the slice holding one [ServerStatus] per peer, in order. *)
Lemma fill_servers_spec peers i (servers : list Previous.ServerStatus) :
  (i + length peers = length servers)%nat ->
  Previous.fill_servers peers i servers =
    Ret (take i servers ++ map status_of_peer peers)%list.
Proof.
  revert i servers. induction peers as [|p peers IH]; intros i servers Hlen.
  - simpl in *. rewrite app_nil_r, take_ge by lia. reflexivity.
  - simpl in Hlen. cbn [Previous.fill_servers]. unfold Previous.slice_store.
    destruct (decide (i < length servers)%nat) as [Hi|Hi]; [|lia].
    cbn [mbind outcome_bind].
    rewrite IH by (rewrite length_insert; lia).
    rewrite (take_S_r _ _ (status_of_peer p))
      by (apply list_lookup_insert_eq; exact Hi).
    rewrite take_insert_ge by lia.
    rewrite <- app_assoc. reflexivity.
Qed.

Lemma count_status_up_peers peers acc :
  Previous.count_status_up (map status_of_peer peers) acc = count_up peers acc.
Proof.
  revert acc. induction peers as [|p peers IH]; intros acc; simpl;
    [reflexivity | apply IH].
Qed.

(** X19: The earlier reduction, which copied the peers into a slice of
    [ServerStatus] by index before counting, never panics and returns on
    every response what the present reduction returns. *)
Theorem Previous_calculateStatsFor_agrees upstream res :
  Previous.calculateStatsFor upstream res =
    Ret (calculateStatsFor upstream res).
Proof.
  unfold Previous.calculateStatsFor, calculateStatsFor.
  destruct (len (Peers res) <? 1); [reflexivity|].
  rewrite fill_servers_spec
    by (unfold Previous.make_servers; rewrite length_replicate; lia).
  rewrite take_0. cbn [mbind outcome_bind app].
  rewrite count_status_up_peers. unfold len. rewrite length_map.
  reflexivity.
Qed.

Lemma Previous_range_body_zone_only hostname
    (hostUpstreams : gmap string (list string)) u v :
  zone_only (u, v) ->
  Previous.range_body hostname hostUpstreams u v =
    range_body hostname hostUpstreams u v.
Proof.
  intros [zone Hv]. simpl in Hv. subst v.
  unfold Previous.range_body, range_body. simpl.
  unfold Previous.field_body. simpl.
  destruct (derive_hostname_returns zone) as [host ->]. simpl.
  destruct (negb (String.eqb host hostname)); [reflexivity|].
  destruct (hostUpstreams !! host); reflexivity.
Qed.

(** X20: On a zone map of the shape the query [fields=zone] returns (every
    entry an object with the one field "zone", a string) the earlier
    resolver, which visited every field of an entry, returns what the
    present one returns. *)
Theorem Previous_resolver_agrees hostname entries :
  Forall zone_only entries ->
  Previous.hostnameUpstreamsFromResponse hostname (VMap entries) =
    hostnameUpstreamsFromResponse hostname (VMap entries).
Proof.
  intros Hall.
  unfold Previous.hostnameUpstreamsFromResponse, hostnameUpstreamsFromResponse.
  simpl. generalize (∅ : gmap string (list string)).
  induction Hall as [|[u v] entries Hshape _ IH]; intros hostUpstreams; simpl.
  - reflexivity.
  - rewrite (Previous_range_body_zone_only _ _ _ _ Hshape).
    destruct (range_body hostname hostUpstreams u v) as [m|msg]; simpl.
    + apply IH.
    + reflexivity.
Qed.

Lemma Previous_resolver_agrees_witness :
  Previous.hostnameUpstreamsFromResponse "bar.example.org" sample_zones =
    Ret {[ "bar.example.org" := ["hg-backend"; "lxr-backend"] ]}.
Proof.
  unfold sample_zones. rewrite Previous_resolver_agrees.
  - rewrite hostnameUpstreamsFromResponse_map. reflexivity.
  - repeat constructor; eexists; reflexivity.
Defined.








